(** * Eulerian paths by constraint solving: a verification of [euler_paths.py]

    The script reads an adjacency matrix [adj], asserts constraints over two
    uninterpreted integer functions [P] (the vertex sequence) and [t] (the
    slot of every edge occurrence), asks the solver for a verdict, and, unless
    the verdict is [unsat], reads [P 0 .. P k] off the model.

    The embedding follows the script line by line: the solver's assertion
    list and the counter [k] are threaded through the loops as explicit
    state, [adj[i,j]] may raise, every [print] adds a line to the output,
    and the solver is a parameter: any function from assertion lists to a
    verdict and, possibly, a model.  The laws at the end say what they
    need of it. *)

From Stdlib Require Import ZArith List Bool Lia Permutation Arith Relations Sorted.
Import ListNotations.
Open Scope Z_scope.

(** ** Z3 expressions built by the script *)

Inductive term : Type :=
| IntVal (z : Z)
| P (a : term)
| t (a : term)
| Plus (a b : term).

Inductive formula : Type :=
| Eq (a b : term)
| Ne (a b : term)
| Le (a b : term)
| Ge (a b : term)
| And (f g : formula)
| Or (f g : formula).

(** An interpretation of the two functions declared on lines 22-23, with a
    value at every integer: what gives the assertions their meaning.  What
    [s.model()] hands to the script is less, see [z3_model] below. *)
Record model : Type := Model { interp_P : Z -> Z; interp_t : Z -> Z }.

Fixpoint eval (m : model) (a : term) : Z :=
  match a with
  | IntVal z => z
  | P b => interp_P m (eval m b)
  | t b => interp_t m (eval m b)
  | Plus b c => eval m b + eval m c
  end.

Fixpoint holds (m : model) (f : formula) : bool :=
  match f with
  | Eq a b => eval m a =? eval m b
  | Ne a b => negb (eval m a =? eval m b)
  | Le a b => eval m a <=? eval m b
  | Ge a b => eval m a >=? eval m b
  | And f g => holds m f && holds m g
  | Or f g => holds m f || holds m g
  end.

Definition satisfies (m : model) (s : list formula) : Prop :=
  Forall (fun f => holds m f = true) s.

Definition satisfiable (s : list formula) : Prop :=
  exists m, satisfies m s.

(** ** Exceptions and loops *)

Inductive exn : Type :=
| IndexError      (* adj[i,j] outside the matrix *)
| Z3Exception     (* s.model() with no model available *)
| AttributeError. (* as_long() of a term that is not a numeral *)

Inductive result (A : Type) : Type :=
| Ok (a : A)
| Raise (e : exn).
Arguments Ok {A} a.
Arguments Raise {A} e.

Definition bind {A B : Type} (r : result A) (f : A -> result B) : result B :=
  match r with
  | Ok a => f a
  | Raise e => Raise e
  end.

Notation "x <- r ;; c" := (bind r (fun x => c))
  (at level 61, r at next level, right associativity).

(** [for x in xs: body], threading the state and stopping at the first
    exception. *)
Fixpoint for_each {A S : Type} (xs : list A) (body : A -> S -> result S)
  (st : S) : result S :=
  match xs with
  | [] => Ok st
  | x :: xs' => st' <- body x st ;; for_each xs' body st'
  end.

(** Python's [range(lo, hi)]: empty when [hi <= lo]. *)
Definition range (lo hi : Z) : list Z :=
  map (fun d => lo + Z.of_nat d) (seq 0 (Z.to_nat (hi - lo))).

(** ** The adjacency matrix *)

Definition matrix : Type := list (list Z).

(** [np.shape(adj)[0]] *)
Definition shape0 (adj : matrix) : Z := Z.of_nat (length adj).

(** [adj[i,j]] for non-negative [i], [j]. *)
Definition get (adj : matrix) (i j : Z) : result Z :=
  match nth_error adj (Z.to_nat i) with
  | Some row =>
      match nth_error row (Z.to_nat j) with
      | Some a => Ok a
      | None => Raise IndexError
      end
  | None => Raise IndexError
  end.

(** ** The constraints (lines 43-55) *)

(** The solver state the loops thread: the counter [k] and the assertions
    of [s], oldest first. *)
Definition state : Type := (Z * list formula)%type.

(** [Or(And(P(t(k))==i,P(t(k)+1)==j),And(P(t(k))==j,P(t(k)+1)==i))] *)
Definition edge_assertion (k i j : Z) : formula :=
  Or (And (Eq (P (t (IntVal k))) (IntVal i))
          (Eq (P (Plus (t (IntVal k)) (IntVal 1))) (IntVal j)))
     (And (Eq (P (t (IntVal k))) (IntVal j))
          (Eq (P (Plus (t (IntVal k)) (IntVal 1))) (IntVal i))).

(** Lines 48-49: one assertion, then [k += 1]. *)
Definition add_edge (i j : Z) (st : state) : state :=
  let '(k, s) := st in (k + 1, s ++ [edge_assertion k i j]).

(** Lines 46-49 for one cell of the matrix. *)
Definition scan_cell (adj : matrix) (i j : Z) (st : state) : result state :=
  a <- get adj i j ;;
  if a =? 0 then Ok st
  else for_each (range 0 a) (fun _ st' => Ok (add_edge i j st')) st.

(** Lines 44-49. *)
Definition scan_edges (adj : matrix) (n : Z) (st : state) : result state :=
  for_each (range 0 n)
    (fun i => for_each (range i n) (fun j => scan_cell adj i j)) st.

(** Lines 52-55 for one [i]. *)
Definition distinct_row (k i : Z) (s : list formula) : list formula :=
  fold_left
    (fun s' j => if i =? j then s' else s' ++ [Ne (t (IntVal i)) (t (IntVal j))])
    (range 0 k) s.

(** Lines 50-55. *)
Definition order_constraints (k : Z) (s : list formula) : list formula :=
  fold_left
    (fun s' i =>
       distinct_row k i
         (s' ++ [Le (t (IntVal i)) (IntVal (k - 1)); Ge (t (IntVal i)) (IntVal 0)]))
    (range 0 k) s.

(** Lines 32 and 43-55: the final counter and the asserted constraints. *)
Definition encode (adj : matrix) : result state :=
  let n := shape0 adj in
  st <- scan_edges adj n (0, []) ;;
  Ok (fst st, order_constraints (fst st) (snd st)).

(** ** The solver and the script as a whole *)

Inductive verdict : Type := sat | unsat | unknown.

Definition verdict_eqb (a b : verdict) : bool :=
  match a, b with
  | sat, sat | unsat, unsat | unknown, unknown => true
  | _, _ => false
  end.

(** What the solver answers on an assertion list: the value of [s.check()]
    and the interpretation behind the model that [s.model()] hands out
    afterwards, if it hands out any. *)
Record answer : Type := Answer { check : verdict; get_model : option model }.

Definition solver : Type := list formula -> answer.

(** Whether an expression applies [P], and whether an assertion does. *)
Fixpoint term_mentions_P (a : term) : bool :=
  match a with
  | IntVal _ => false
  | P _ => true
  | t b => term_mentions_P b
  | Plus b c => term_mentions_P b || term_mentions_P c
  end.

Fixpoint mentions_P (f : formula) : bool :=
  match f with
  | Eq a b | Ne a b | Le a b | Ge a b => term_mentions_P a || term_mentions_P b
  | And f g | Or f g => mentions_P f || mentions_P g
  end.

(** What [s.model()] returns after the assertions [s]: the solver's
    interpretation, kept for the functions the assertions mention only.
    When no assertion applies [P], the model has no entry for [P]. *)
Record z3_model : Type :=
  Z3Model { values : model; defines_P : bool }.

Definition model_after (s : list formula) (m : model) : z3_model :=
  Z3Model m (existsb mentions_P s).

(** [m.evaluate(P(i)).as_long()]: without model completion, [evaluate]
    gives a numeral when the model has an entry for [P], and gives back the
    term [P(i)] otherwise, which has no [as_long]. *)
Definition as_long (zm : z3_model) (i : Z) : result Z :=
  if defines_P zm then Ok (eval (values zm) (P (IntVal i)))
  else Raise AttributeError.

(** What the script prints, one constructor per [print] call. *)
Inductive line : Type :=
| Matrix (adj : matrix)              (* line 33 *)
| Assertions (s : list formula)      (* line 59 *)
| Verdict (r : verdict)              (* line 63 *)
| ModelDump (zm : z3_model)          (* line 73 *)
| Path (results : list Z).           (* line 79 *)

(** How the interpreter stops. *)
Inductive ending : Type :=
| Ended                  (* after the last line *)
| Exit                   (* [exit()] on line 67 *)
| Traceback (e : exn).   (* an exception reaches the top level *)

(** A run: what was printed, oldest first, and how it stopped. *)
Definition run : Type := (list line * ending)%type.

Definition stdout (o : run) : list line := fst o.
Definition ending_of (o : run) : ending := snd o.

(** The values lines 76-78 collect when every evaluation gives a numeral:
    [P] of the model at [0..k]. *)
Definition decode (m : model) (k : Z) : list Z :=
  map (fun i => eval m (P (IntVal i))) (range 0 (k + 1)).

(** Lines 76-78: [results.append(m.evaluate(P(i)).as_long())] for [i] in
    [range(k+1)], stopping at the first evaluation that raises. *)
Definition collect (zm : z3_model) (k : Z) : result (list Z) :=
  for_each (range 0 (k + 1))
    (fun i results => v <- as_long zm i ;; Ok (results ++ [v])) [].

(** Lines 32-79, for any matrix in the place of the one on line 31. *)
Definition main (z3 : solver) (adj : matrix) : run :=
  match encode adj with
  | Raise e => ([Matrix adj], Traceback e)
  | Ok (k, s) =>
      let r := check (z3 s) in
      if verdict_eqb r unsat then ([Matrix adj; Assertions s; Verdict r], Exit)
      else
        match get_model (z3 s) with
        | None => ([Matrix adj; Assertions s; Verdict r], Traceback Z3Exception)
        | Some m =>
            let zm := model_after s m in
            match collect zm k with
            | Ok results =>
                ([Matrix adj; Assertions s; Verdict r; ModelDump zm; Path results],
                 Ended)
            | Raise e =>
                ([Matrix adj; Assertions s; Verdict r; ModelDump zm], Traceback e)
            end
        end
  end.

(** The matrix hard-wired on line 31. *)
Definition adj31 : matrix :=
  [[0;1;0;0;0;1];[1;0;1;1;2;0];[0;1;0;0;0;1];[0;1;0;2;1;0];[0;2;0;1;0;0];[1;0;1;0;0;0]].

(** ** The edge occurrences, as the specification describes them *)

(** The entry at row [i], column [j]; 0 outside the matrix. *)
Definition entry (adj : matrix) (i j : Z) : Z :=
  nth (Z.to_nat j) (nth (Z.to_nat i) adj []) 0.

(** The occurrences of the cell [(i, j)]: one per unit of multiplicity. *)
Definition cell_occurrences (adj : matrix) (i j : Z) : list (Z * Z) :=
  repeat (i, j) (Z.to_nat (entry adj i j)).

(** The upper triangle, row by row and left to right within a row. *)
Definition edge_occurrences (adj : matrix) : list (Z * Z) :=
  flat_map
    (fun i => flat_map (fun j => cell_occurrences adj i j) (range i (shape0 adj)))
    (range 0 (shape0 adj)).

(** The sum of the entries of the upper triangle. *)
Definition sum_list (l : list Z) : Z := fold_right Z.add 0 l.

Definition upper_sum (adj : matrix) : Z :=
  sum_list
    (map (fun i => sum_list (map (fun j => entry adj i j) (range i (shape0 adj))))
       (range 0 (shape0 adj))).

(** The disjunctions of a list of occurrences numbered from [k0]. *)
Fixpoint edge_assertions (k0 : Z) (l : list (Z * Z)) : list formula :=
  match l with
  | [] => []
  | (i, j) :: l' => edge_assertion k0 i j :: edge_assertions (k0 + 1) l'
  end.

(** The range and distinctness assertions of slot [i]. *)
Definition order_row (k i : Z) : list formula :=
  [Le (t (IntVal i)) (IntVal (k - 1)); Ge (t (IntVal i)) (IntVal 0)]
  ++ map (fun j => Ne (t (IntVal i)) (t (IntVal j)))
       (filter (fun j => negb (i =? j)) (range 0 k)).

(** Every cell the scan reads lies inside the matrix: each of the first [n]
    rows has at least [n] columns. *)
Definition readable (adj : matrix) : Prop :=
  Forall (fun row => (length adj <= length row)%nat) adj.

(** ** The input contract of the specification *)

Definition square (adj : matrix) : Prop :=
  Forall (fun row => length row = length adj) adj.

Definition non_negative (adj : matrix) : Prop :=
  Forall (Forall (fun a => 0 <= a)) adj.

Definition symmetric (adj : matrix) : Prop :=
  forall i j, 0 <= i < shape0 adj -> 0 <= j < shape0 adj ->
    entry adj i j = entry adj j i.

Definition valid_graph (adj : matrix) : Prop :=
  square adj /\ non_negative adj /\ symmetric adj.

(** A loop body [emits l] when it appends the disjunctions of [l] to the
    assertions and advances the counter by the length of [l]. *)
Definition emits (body : state -> result state) (l : list (Z * Z)) : Prop :=
  forall k0 s0,
    body (k0, s0)
    = Ok (k0 + Z.of_nat (length l), s0 ++ edge_assertions k0 l).

(** ** What the assertions mean *)

(** The disjunction of occurrence [e] with endpoints [(u, v)], read in a
    model: the slot [t e] of the path holds the edge in one of its two
    directions. *)
Definition pins (m : model) (e u v : Z) : Prop :=
  (interp_P m (interp_t m e) = u /\ interp_P m (interp_t m e + 1) = v) \/
  (interp_P m (interp_t m e) = v /\ interp_P m (interp_t m e + 1) = u).

Definition euler_model (l : list (Z * Z)) (m : model) : Prop :=
  (forall e u v, nth_error l e = Some (u, v) -> pins m (Z.of_nat e) u v) /\
  (forall e, 0 <= e < Z.of_nat (length l) ->
     0 <= interp_t m e <= Z.of_nat (length l) - 1) /\
  (forall e e', 0 <= e < Z.of_nat (length l) -> 0 <= e' < Z.of_nat (length l) ->
     e <> e' -> interp_t m e <> interp_t m e').

(** The slot of occurrence number [e], as a position in the path. *)
Definition slot (m : model) (e : nat) : nat :=
  Z.to_nat (interp_t m (Z.of_nat e)).

(** The vertex a model puts at position [i] of the path. *)
Definition path_at (m : model) (i : nat) : Z := interp_P m (Z.of_nat i).

(** The adjacent-position pairs of a vertex sequence. *)
Definition steps (p : list Z) : list (Z * Z) := combine p (tl p).

(** An edge without its direction: smaller endpoint first, as the scan of
    the upper triangle lists it. *)
Definition undirected (c : Z * Z) : Z * Z :=
  if fst c <=? snd c then c else (snd c, fst c).

(** [p] traverses every occurrence of [l] exactly once: occurrence [e] sits
    at the step [at_step e] in one of its two directions, no two occurrences
    share a step, and every step holds an occurrence. *)
Definition covers (l : list (Z * Z)) (p : list Z) (at_step : nat -> nat) : Prop :=
  (forall e u v, nth_error l e = Some (u, v) ->
     nth_error (steps p) (at_step e) = Some (u, v) \/
     nth_error (steps p) (at_step e) = Some (v, u)) /\
  (forall e e', (e < length l)%nat -> (e' < length l)%nat ->
     at_step e = at_step e' -> e = e') /\
  (forall i, (i < length (steps p))%nat ->
     exists e, (e < length l)%nat /\ at_step e = i).

Definition pair_eq_dec (x y : Z * Z) : {x = y} + {x <> y}.
Proof. decide equality; apply Z.eq_dec. Defined.

(** ** How a run ends, seen from outside *)

(** The exit status of the interpreter: 1 after an uncaught exception, 0
    after [exit()] and after the last line. *)
Definition exit_status (e : ending) : Z :=
  match e with
  | Ended => 0
  | Exit => 0
  | Traceback _ => 1
  end.

(** The path a run has printed, if any. *)
Definition printed_path (o : run) : option (list Z) :=
  match last (stdout o) (Matrix []) with
  | Path results => Some results
  | _ => None
  end.

(** ** Small inputs *)

(** One edge between two vertices. *)
Definition single_edge : matrix := [[0;1];[1;0]].

(** The entry below the diagonal differs from the one above. *)
Definition asymmetric_graph : matrix := [[0;1];[0;0]].

(** A negative entry on the diagonal. *)
Definition negative_graph : matrix := [[0;1];[1;-1]].

(** Two rows of three columns. *)
Definition wide_graph : matrix := [[0;1;0];[1;0;0]].

(** One vertex, no edge. *)
Definition single_vertex : matrix := [[0]].

(** The walk 0, 1, 1, ... with the occurrences in scan order. *)
Definition walk_011 : model :=
  Model (fun i => if i <=? 0 then 0 else 1) (fun e => e).

(** A model that sends every position to 5. *)
Definition all_five : model := Model (fun _ => 5) (fun _ => 0).

(** Solvers that give the same answer whatever is asserted. *)
Definition answers (r : verdict) (m : option model) : solver :=
  fun _ => Answer r m.

(** ** Degrees and connectedness of the input graph *)

(** 1 when the endpoint [a] is the vertex [v]. *)
Definition at_vertex (v a : Z) : Z := if a =? v then 1 else 0.

(** What one edge adds to the degree of [v]; a loop at [v] adds 2. *)
Definition incidence (v : Z) (c : Z * Z) : Z :=
  at_vertex v (fst c) + at_vertex v (snd c).

(** The degree of [v] in a list of edge occurrences. *)
Definition deg (l : list (Z * Z)) (v : Z) : Z := sum_list (map (incidence v) l).

(** The degree of [v] read off the matrix: the sum of row [v], the diagonal
    entry counted twice. *)
Definition degree (adj : matrix) (v : Z) : Z :=
  sum_list (map (entry adj v) (range 0 (shape0 adj))) + entry adj v v.

Definition odd_vertices (adj : matrix) : list Z :=
  filter (fun v => Z.odd (degree adj v)) (range 0 (shape0 adj)).

Definition odd_count (adj : matrix) : nat := length (odd_vertices adj).

(** Two vertices of the matrix joined by at least one edge. *)
Definition adjacent (adj : matrix) (u v : Z) : Prop :=
  0 <= u < shape0 adj /\ 0 <= v < shape0 adj /\ 0 < entry adj u v.

Definition reachable (adj : matrix) : Z -> Z -> Prop :=
  clos_refl_trans Z (adjacent adj).

(** Every vertex can be reached from every other. *)
Definition connected (adj : matrix) : Prop :=
  forall u v, 0 <= u < shape0 adj -> 0 <= v < shape0 adj -> reachable adj u v.

(** More than one connected component contains an edge: two edges whose
    endpoints cannot reach one another. *)
Definition edges_in_two_components (adj : matrix) : Prop :=
  exists u u' v v',
    adjacent adj u u' /\ adjacent adj v v' /\ ~ reachable adj u v.

(** The same notions on a list of occurrences. *)
Definition linked (l : list (Z * Z)) (u v : Z) : Prop :=
  In (u, v) l \/ In (v, u) l.

Definition reach (l : list (Z * Z)) : Z -> Z -> Prop :=
  clos_refl_trans Z (linked l).

Definition edge_connected (l : list (Z * Z)) : Prop :=
  forall u u' v v', linked l u u' -> linked l v v' -> reach l u v.

(** The degrees of a list an Euler trail can run through: every degree is
    even ([a = b]) or exactly those of [a] and [b] are odd. *)
Definition euler_degrees (l : list (Z * Z)) : Prop :=
  exists a b, forall v, Z.odd (deg l v) = xorb (a =? v) (b =? v).

(** ** Trails *)

(** An edge occurrence taken in one direction: its number in the list and
    the two endpoints, start first. *)
Definition dart : Type := (nat * (Z * Z))%type.

Definition edge_of (d : dart) : nat := fst d.
Definition ends (d : dart) : Z * Z := snd d.
Definition src (d : dart) : Z := fst (snd d).
Definition dst (d : dart) : Z := snd (snd d).

Definition dart_ok (l : list (Z * Z)) (d : dart) : Prop :=
  nth_error l (edge_of d) = Some (src d, dst d) \/
  nth_error l (edge_of d) = Some (dst d, src d).

(** Darts that follow one another from [x] to [y]. *)
Inductive chain : Z -> list dart -> Z -> Prop :=
| chain_nil (x : Z) : chain x [] x
| chain_cons (d : dart) (w : list dart) (y : Z) :
    chain (dst d) w y -> chain (src d) (d :: w) y.

(** Darts of [l] that use no occurrence twice. *)
Definition trail (l : list (Z * Z)) (w : list dart) : Prop :=
  Forall (dart_ok l) w /\ NoDup (map edge_of w).

(** The occurrences a trail has not used yet. *)
Definition unused (l : list (Z * Z)) (w : list dart) : list nat :=
  filter (fun e => negb (existsb (Nat.eqb e) (map edge_of w)))
    (seq 0 (length l)).

(** A vertex some dart of [w] starts or ends at. *)
Definition on_trail (w : list dart) (z : Z) : Prop :=
  exists d, In d w /\ (src d = z \/ dst d = z).

(** The position of the first [e] in a list. *)
Fixpoint index_of (e : nat) (ids : list nat) : nat :=
  match ids with
  | [] => 0
  | e' :: ids' => if Nat.eqb e e' then 0%nat else S (index_of e ids')
  end.

(** The model read off a trail that ends at [y]: position [i] of the path
    is the start of the [i]-th dart, and the position after the last dart is
    [y]; occurrence [e] goes to the place of its dart. *)
Definition model_of_trail (w : list dart) (y : Z) : model :=
  Model
    (fun i => match nth_error w (Z.to_nat i) with Some d => src d | None => y end)
    (fun e => Z.of_nat (index_of (Z.to_nat e) (map edge_of w))).

(** The solver is right and decided on [s]: it answers [sat] with a model of
    [s], or [unsat] when [s] has no model. *)
Definition decides (z3 : solver) (s : list formula) : Prop :=
  (check (z3 s) = sat /\ exists m, get_model (z3 s) = Some m /\ satisfies m s) \/
  (check (z3 s) = unsat /\ ~ satisfiable s).

(** The order in which the scan meets the cells: by row, then by column. *)
Definition scan_le (c c' : Z * Z) : Prop :=
  fst c < fst c' \/ (fst c = fst c' /\ snd c <= snd c').

(** The model printed at the end of the script (lines 218-238). *)
Definition model218 : model :=
  Model
    (fun x => if x =? 1 then 0 else if x =? 3 then 2 else if x =? 10 then 4
              else if x =? 2 then 5 else if x =? 7 then 3 else if x =? 5 then 4
              else if x =? 6 then 3 else if x =? 8 then 3 else 1)
    (fun x => if x =? 1 then 1 else if x =? 2 then 3 else if x =? 3 then 8
              else if x =? 4 then 9 else if x =? 5 then 4 else if x =? 6 then 2
              else if x =? 7 then 7 else if x =? 8 then 6 else if x =? 9 then 5
              else 0).

(** The assertions printed by the script (lines 87-216). *)
Definition assertions87 : list formula :=
  edge_assertions 0
    [(0, 1); (0, 5); (1, 2); (1, 3); (1, 4); (1, 4); (2, 5); (3, 3); (3, 3); (3, 4)]
  ++ flat_map (order_row 10) (range 0 10).

(** Two edges that share no vertex: 0 - 1 and 2 - 3. *)
Definition two_edges : matrix := [[0;1;0;0];[1;0;0;0];[0;0;0;1];[0;0;1;0]].

(** ** Notions for the further properties *)

(** The matrix with every negative entry replaced by 0. *)
Definition clamp (adj : matrix) : matrix := map (map (Z.max 0)) adj.

(** The model that walks the path of [m] backwards: position [i] holds what
    [m] has at [k - i], and every occurrence moves to the mirrored slot. *)
Definition reverse_model (k : Z) (m : model) : model :=
  Model (fun i => interp_P m (k - i)) (fun e => k - 1 - interp_t m e).

(** Two models that agree where a path of [k] edges looks: [P] on [0..k]
    and [t] on [0..k-1]. *)
Definition agree_on_path (k : Z) (m m' : model) : Prop :=
  (forall i, 0 <= i <= k -> interp_P m' i = interp_P m i) /\
  (forall e, 0 <= e < k -> interp_t m' e = interp_t m e).

(** Every pair of edges of the matrix lies in one connected component. *)
Definition edges_connected (adj : matrix) : Prop :=
  forall u u' v v', adjacent adj u u' -> adjacent adj v v' -> reachable adj u v.

(** The two kinds of assertion that grow with the graph. *)
Definition is_disjunction (f : formula) : bool :=
  match f with Or _ _ => true | _ => false end.

Definition is_distinctness (f : formula) : bool :=
  match f with Ne _ _ => true | _ => false end.

(** A matrix whose only nonzero entry lies below the diagonal. *)
Definition lower_only : matrix := [[0;0];[5;0]].

(** An edge between 0 and 1 and a third vertex without edges. *)
Definition edge_and_isolated : matrix := [[0;1;0];[1;0;0];[0;0;0]].

(** * Properties of the loops *)

Lemma In_range (lo hi x : Z) : In x (range lo hi) <-> lo <= x < hi.
Proof.
  unfold range. rewrite in_map_iff. split.
  - intros [d [<- Hd]]. apply in_seq in Hd. lia.
  - intros H. exists (Z.to_nat (x - lo)). split; [lia|].
    apply in_seq. lia.
Qed.

Lemma length_range (lo hi : Z) : length (range lo hi) = Z.to_nat (hi - lo).
Proof. unfold range. now rewrite length_map, length_seq. Qed.

Lemma range_nil (lo hi : Z) : hi <= lo -> range lo hi = [].
Proof.
  intros H. unfold range. replace (Z.to_nat (hi - lo)) with 0%nat by lia.
  reflexivity.
Qed.

Lemma range_cons (lo hi : Z) : lo < hi -> range lo hi = lo :: range (lo + 1) hi.
Proof.
  intros H. unfold range.
  replace (Z.to_nat (hi - lo)) with (S (Z.to_nat (hi - (lo + 1)))) by lia.
  simpl. f_equal; [lia|].
  rewrite <- seq_shift, map_map. apply map_ext. intros; lia.
Qed.

Lemma range_snoc (lo hi : Z) :
  lo <= hi -> range lo (hi + 1) = range lo hi ++ [hi].
Proof.
  intros H. unfold range.
  replace (Z.to_nat (hi + 1 - lo)) with (Z.to_nat (hi - lo) + 1)%nat by lia.
  rewrite seq_app, map_app. simpl. do 2 f_equal. lia.
Qed.

Lemma range_nat (k : nat) : range 0 (Z.of_nat k) = map Z.of_nat (seq 0 k).
Proof.
  unfold range. rewrite Z.sub_0_r, Nat2Z.id. apply map_ext. intros; lia.
Qed.

Lemma NoDup_range (lo hi : Z) : NoDup (range lo hi).
Proof.
  unfold range. apply Finite.Injective_map_NoDup.
  - intros a b. lia.
  - apply seq_NoDup.
Qed.

Lemma edge_assertions_app (l1 l2 : list (Z * Z)) (k0 : Z) :
  edge_assertions k0 (l1 ++ l2)
  = edge_assertions k0 l1 ++ edge_assertions (k0 + Z.of_nat (length l1)) l2.
Proof.
  revert k0. induction l1 as [|[i j] l1 IH]; intros k0; simpl.
  - now rewrite Z.add_0_r.
  - rewrite IH. do 3 f_equal. lia.
Qed.

Lemma length_edge_assertions (l : list (Z * Z)) (k0 : Z) :
  length (edge_assertions k0 l) = length l.
Proof.
  revert k0. induction l as [|[i j] l IH]; intros k0; simpl; [|rewrite IH];
    reflexivity.
Qed.

Lemma nth_error_edge_assertions (l : list (Z * Z)) (k0 : Z) (e : nat) :
  nth_error (edge_assertions k0 l) e
  = option_map (fun c => edge_assertion (k0 + Z.of_nat e) (fst c) (snd c))
      (nth_error l e).
Proof.
  revert k0 e. induction l as [|[i j] l IH]; intros k0 e.
  - destruct e; reflexivity.
  - destruct e as [|e]; simpl.
    + now rewrite Z.add_0_r.
    + rewrite IH. destruct (nth_error l e); simpl; [|reflexivity].
      do 2 f_equal. lia.
Qed.

Lemma emits_multiplicity (A : Type) (xs : list A) (i j : Z) :
  emits (for_each xs (fun _ st' => Ok (add_edge i j st')))
    (repeat (i, j) (length xs)).
Proof.
  induction xs as [|x xs IH]; intros k0 s0; simpl.
  - now rewrite Z.add_0_r, app_nil_r.
  - rewrite IH, repeat_length, <- app_assoc. simpl. do 2 f_equal. lia.
Qed.

Lemma emits_for_each (A : Type) (xs : list A)
  (body : A -> state -> result state) (g : A -> list (Z * Z)) :
  (forall x, In x xs -> emits (body x) (g x)) ->
  emits (for_each xs body) (flat_map g xs).
Proof.
  induction xs as [|x xs IH]; intros Hb k0 s0; simpl.
  - now rewrite Z.add_0_r, app_nil_r.
  - rewrite (Hb x (or_introl eq_refl)). simpl.
    rewrite IH by (intros y Hy; apply Hb; now right).
    rewrite length_app, edge_assertions_app, <- app_assoc.
    do 2 f_equal. lia.
Qed.

Lemma get_entry (adj : matrix) (i j : Z) :
  readable adj -> 0 <= i -> i <= j < shape0 adj ->
  get adj i j = Ok (entry adj i j).
Proof.
  unfold readable, get, entry, shape0. intros Hr Hi Hj.
  destruct (nth_error adj (Z.to_nat i)) as [row|] eqn:Hrow.
  - rewrite (nth_error_nth _ _ _ Hrow).
    rewrite Forall_forall in Hr.
    pose proof (Hr row (nth_error_In _ _ Hrow)) as Hlen.
    destruct (nth_error row (Z.to_nat j)) as [a|] eqn:Ha.
    + now rewrite (nth_error_nth _ _ _ Ha).
    + apply nth_error_None in Ha. lia.
  - apply nth_error_None in Hrow. lia.
Qed.

Lemma emits_scan_cell (adj : matrix) (i j : Z) :
  get adj i j = Ok (entry adj i j) ->
  emits (scan_cell adj i j) (cell_occurrences adj i j).
Proof.
  intros Hg k0 s0. unfold scan_cell, cell_occurrences. rewrite Hg. simpl.
  destruct (entry adj i j =? 0) eqn:Hz.
  - apply Z.eqb_eq in Hz. rewrite Hz. simpl.
    now rewrite Z.add_0_r, app_nil_r.
  - rewrite emits_multiplicity, length_range, Z.sub_0_r. reflexivity.
Qed.

Lemma emits_scan_edges (adj : matrix) :
  readable adj ->
  emits (scan_edges adj (shape0 adj)) (edge_occurrences adj).
Proof.
  intros Hr. unfold scan_edges, edge_occurrences.
  apply emits_for_each. intros i Hi. apply In_range in Hi.
  apply emits_for_each. intros j Hj. apply In_range in Hj.
  apply emits_scan_cell, get_entry; [assumption|lia|lia].
Qed.

Lemma distinct_row_spec (k i : Z) (s : list formula) :
  distinct_row k i s
  = s ++ map (fun j => Ne (t (IntVal i)) (t (IntVal j)))
         (filter (fun j => negb (i =? j)) (range 0 k)).
Proof.
  unfold distinct_row. generalize (range 0 k) as xs. intros xs. revert s.
  induction xs as [|x xs IH]; intros s; simpl.
  - now rewrite app_nil_r.
  - rewrite IH. destruct (i =? x); simpl; [reflexivity|].
    now rewrite <- app_assoc.
Qed.

Lemma order_constraints_spec (k : Z) (s : list formula) :
  order_constraints k s = s ++ flat_map (order_row k) (range 0 k).
Proof.
  unfold order_constraints. generalize (range 0 k) as xs. intros xs.
  revert s. induction xs as [|x xs IH]; intros s; simpl.
  - now rewrite app_nil_r.
  - rewrite IH, distinct_row_spec. unfold order_row.
    now rewrite <- !app_assoc.
Qed.

(** The script's loops refine the specification's description: on a
    readable matrix the counter ends at the number of occurrences and the
    assertions are the disjunctions followed by the rows of [order_row]. *)
Lemma encode_readable (adj : matrix) :
  readable adj ->
  encode adj
  = Ok (Z.of_nat (length (edge_occurrences adj)),
        edge_assertions 0 (edge_occurrences adj)
        ++ flat_map (order_row (Z.of_nat (length (edge_occurrences adj))))
             (range 0 (Z.of_nat (length (edge_occurrences adj))))).
Proof.
  intros Hr. unfold encode. rewrite (emits_scan_edges adj Hr). simpl.
  now rewrite order_constraints_spec.
Qed.

(** ** When the scan raises *)

Lemma for_each_Ok (A S : Type) (xs : list A) (body : A -> S -> result S)
  (st st' : S) (x : A) :
  for_each xs body st = Ok st' -> In x xs ->
  exists st1 st2, body x st1 = Ok st2.
Proof.
  revert st. induction xs as [|y xs IH]; intros st Hrun Hin; [easy|].
  simpl in Hrun. destruct (body y st) as [st1|e] eqn:Hy; [|discriminate].
  destruct Hin as [->|Hin]; [now exists st, st1|]. now apply (IH st1).
Qed.

Lemma for_each_Raise (A S : Type) (xs : list A) (body : A -> S -> result S)
  (st : S) (e : exn) :
  for_each xs body st = Raise e ->
  exists x st1, In x xs /\ body x st1 = Raise e.
Proof.
  revert st. induction xs as [|y xs IH]; intros st Hrun; [discriminate|].
  simpl in Hrun. destruct (body y st) as [st1|e'] eqn:Hy; simpl in Hrun.
  - destruct (IH _ Hrun) as (x & st2 & Hin & Hx). exists x, st2.
    split; [now right|assumption].
  - injection Hrun as ->. exists y, st. split; [now left|assumption].
Qed.

Lemma for_each_ext (A S : Type) (xs : list A)
  (body1 body2 : A -> S -> result S) (st : S) :
  (forall x st1, In x xs -> body1 x st1 = body2 x st1) ->
  for_each xs body1 st = for_each xs body2 st.
Proof.
  revert st. induction xs as [|y xs IH]; intros st Hb; [reflexivity|].
  simpl. rewrite (Hb y st (or_introl eq_refl)).
  destruct (body2 y st); simpl; [|reflexivity].
  apply IH. intros x st1 Hx. apply Hb. now right.
Qed.

Lemma scan_cell_Raise (adj : matrix) (i j : Z) (st : state) (e : exn) :
  scan_cell adj i j st = Raise e -> e = IndexError.
Proof.
  unfold scan_cell, get.
  destruct (nth_error adj (Z.to_nat i)) as [row|]; simpl;
    [destruct (nth_error row (Z.to_nat j)) as [a|]; simpl|]; try congruence.
  destruct (a =? 0); [discriminate|].
  intros Hrun. apply for_each_Raise in Hrun.
  destruct Hrun as (? & ? & _ & ?). discriminate.
Qed.

Lemma scan_edges_Raise (adj : matrix) (n : Z) (st : state) (e : exn) :
  scan_edges adj n st = Raise e -> e = IndexError.
Proof.
  intros Hrun. apply for_each_Raise in Hrun. destruct Hrun as (i & st1 & _ & Hi).
  apply for_each_Raise in Hi. destruct Hi as (j & st2 & _ & Hj).
  now apply scan_cell_Raise in Hj.
Qed.

Lemma scan_cell_Ok (adj : matrix) (i j : Z) (st st' : state) :
  0 <= i -> 0 <= j -> scan_cell adj i j st = Ok st' ->
  exists row, nth_error adj (Z.to_nat i) = Some row /\ (Z.to_nat j < length row)%nat.
Proof.
  unfold scan_cell, get. intros Hi Hj.
  destruct (nth_error adj (Z.to_nat i)) as [row|]; [|discriminate].
  destruct (nth_error row (Z.to_nat j)) as [a|] eqn:Ha; [|discriminate].
  intros _. exists row. split; [reflexivity|].
  apply nth_error_Some. congruence.
Qed.

Lemma scan_edges_Ok (adj : matrix) (st st' : state) :
  scan_edges adj (shape0 adj) st = Ok st' -> readable adj.
Proof.
  intros Hrun. apply Forall_forall. intros row Hrow.
  destruct (In_nth_error _ _ Hrow) as [i Hi].
  assert (Hlt : (i < length adj)%nat) by (apply nth_error_Some; congruence).
  unfold scan_edges, shape0 in Hrun.
  destruct (for_each_Ok _ _ _ _ _ _ (Z.of_nat i) Hrun) as (st1 & st2 & Hrow_i).
  { apply In_range. lia. }
  destruct (for_each_Ok _ _ _ _ _ _ (Z.of_nat (length adj) - 1) Hrow_i)
    as (st3 & st4 & Hcell).
  { apply In_range. lia. }
  apply scan_cell_Ok in Hcell; [|lia|lia].
  destruct Hcell as (row' & Hrow' & Hlen).
  rewrite Nat2Z.id in Hrow'. assert (row' = row) by congruence. subst row'.
  lia.
Qed.

Lemma encode_Ok_readable (adj : matrix) (st : state) :
  encode adj = Ok st -> readable adj.
Proof.
  unfold encode. intros Hrun.
  destruct (scan_edges adj (shape0 adj) (0, [])) as [st1|e] eqn:Hscan;
    [|discriminate].
  now apply scan_edges_Ok in Hscan.
Qed.

Lemma encode_Raise (adj : matrix) (e : exn) :
  encode adj = Raise e -> e = IndexError /\ ~ readable adj.
Proof.
  intros Hrun. split.
  - unfold encode in Hrun.
    destruct (scan_edges adj (shape0 adj) (0, [])) as [st1|e'] eqn:Hscan;
      [discriminate|].
    injection Hrun as <-. now apply scan_edges_Raise in Hscan.
  - intros Hr. rewrite (encode_readable adj Hr) in Hrun. discriminate.
Qed.

Lemma square_readable (adj : matrix) : square adj -> readable adj.
Proof.
  unfold square, readable. apply Forall_impl. intros row ->. lia.
Qed.

(** ** The assertions, one by one *)

Lemma In_order_row (k i : Z) (f : formula) :
  In f (order_row k i) <->
  f = Le (t (IntVal i)) (IntVal (k - 1)) \/
  f = Ge (t (IntVal i)) (IntVal 0) \/
  exists j, 0 <= j < k /\ i <> j /\ f = Ne (t (IntVal i)) (t (IntVal j)).
Proof.
  unfold order_row. simpl. rewrite in_map_iff. split.
  - intros [<-|[<-|(j & <- & Hj)]]; auto.
    apply filter_In in Hj. destruct Hj as [Hj Hne]. apply In_range in Hj.
    right; right. exists j. repeat split; lia.
  - intros [->|[->|(j & Hj & Hne & ->)]]; auto.
    right; right. exists j. split; [reflexivity|].
    apply filter_In. split; [apply In_range; lia|].
    apply negb_true_iff, Z.eqb_neq, Hne.
Qed.

Lemma In_edge_assertions (l : list (Z * Z)) (f : formula) :
  In f (edge_assertions 0 l) <->
  exists e u v, nth_error l e = Some (u, v) /\ f = edge_assertion (Z.of_nat e) u v.
Proof.
  split.
  - intros Hin. destruct (In_nth_error _ _ Hin) as [e He].
    rewrite nth_error_edge_assertions in He.
    destruct (nth_error l e) as [[u v]|] eqn:Hl; [|discriminate].
    simpl in He. injection He as <-. now exists e, u, v.
  - intros (e & u & v & Hl & ->). apply (nth_error_In _ e).
    rewrite nth_error_edge_assertions, Hl. reflexivity.
Qed.

(** ** The assertions read in a model *)

Lemma holds_edge_assertion (m : model) (e u v : Z) :
  holds m (edge_assertion e u v) = true <-> pins m e u v.
Proof.
  unfold pins. simpl.
  rewrite orb_true_iff, !andb_true_iff, !Z.eqb_eq. reflexivity.
Qed.

Lemma satisfies_assertions (m : model) (l : list (Z * Z)) :
  satisfies m
    (edge_assertions 0 l
     ++ flat_map (order_row (Z.of_nat (length l))) (range 0 (Z.of_nat (length l))))
  <-> euler_model l m.
Proof.
  unfold satisfies, euler_model. rewrite Forall_app, !Forall_forall. split.
  - intros [Hedges Horder]. split; [|split].
    + intros e u v He. apply holds_edge_assertion, Hedges, In_edge_assertions.
      now exists e, u, v.
    + intros e He.
      assert (Hrow : forall f, In f (order_row (Z.of_nat (length l)) e) ->
                               holds m f = true).
      { intros f Hf. apply Horder, in_flat_map. exists e.
        split; [now apply In_range|assumption]. }
      pose proof (Hrow _ (proj2 (In_order_row _ _ _) (or_introl eq_refl))) as Hle.
      pose proof (Hrow _ (proj2 (In_order_row _ _ _)
                            (or_intror (or_introl eq_refl)))) as Hge.
      simpl in Hle, Hge. lia.
    + intros e e' He He' Hne.
      assert (Hd : holds m (Ne (t (IntVal e)) (t (IntVal e'))) = true).
      { apply Horder, in_flat_map. exists e. split; [now apply In_range|].
        apply In_order_row. right; right. now exists e'. }
      simpl in Hd. lia.
  - intros (Hedges & Hrange & Hinj). split.
    + intros f Hf. apply In_edge_assertions in Hf.
      destruct Hf as (e & u & v & He & ->).
      now apply holds_edge_assertion, Hedges.
    + intros f Hf. apply in_flat_map in Hf. destruct Hf as (e & He & Hf).
      apply In_range in He. apply In_order_row in Hf.
      destruct Hf as [->|[->|(e' & He' & Hne & ->)]]; simpl.
      * specialize (Hrange e He). lia.
      * specialize (Hrange e He). lia.
      * specialize (Hinj e e' He He' Hne). lia.
Qed.

(** On a matrix the scan can read, a model satisfies the asserted
    constraints exactly when it is an Euler model of the occurrences. *)
Lemma satisfies_encode (adj : matrix) (k : Z) (s : list formula) (m : model) :
  encode adj = Ok (k, s) ->
  k = Z.of_nat (length (edge_occurrences adj)) /\
  (satisfies m s <-> euler_model (edge_occurrences adj) m).
Proof.
  intros Hrun. pose proof (encode_Ok_readable _ _ Hrun) as Hr.
  rewrite (encode_readable adj Hr) in Hrun. injection Hrun as <- <-.
  split; [reflexivity|apply satisfies_assertions].
Qed.

(** ** The decoded path and the slots of a model *)

Lemma decode_nat (m : model) (K : nat) :
  decode m (Z.of_nat K) = map (fun i => interp_P m (Z.of_nat i)) (seq 0 (S K)).
Proof.
  unfold decode. replace (Z.of_nat K + 1) with (Z.of_nat (S K)) by lia.
  rewrite range_nat, map_map. reflexivity.
Qed.

Lemma length_decode (m : model) (k : Z) :
  0 <= k -> Z.of_nat (length (decode m k)) = k + 1.
Proof. intros Hk. unfold decode. rewrite length_map, length_range. lia. Qed.

Lemma combine_map_seq (A : Type) (f : nat -> A) (a K : nat) :
  combine (map f (seq a (S K))) (map f (seq (S a) K))
  = map (fun i => (f i, f (S i))) (seq a K).
Proof.
  revert a. induction K as [|K IH]; intros a; [reflexivity|].
  change (seq a (S (S K))) with (a :: seq (S a) (S K)).
  change (seq (S a) (S K)) with (S a :: seq (S (S a)) K) at 2.
  change (seq a (S K)) with (a :: seq (S a) K).
  simpl map. simpl combine. f_equal. apply (IH (S a)).
Qed.

Lemma steps_decode (m : model) (K : nat) :
  steps (decode m (Z.of_nat K))
  = map (fun i => (interp_P m (Z.of_nat i), interp_P m (Z.of_nat (S i))))
      (seq 0 K).
Proof.
  rewrite decode_nat. unfold steps.
  change (tl (map (fun i => interp_P m (Z.of_nat i)) (seq 0 (S K))))
    with (map (fun i => interp_P m (Z.of_nat i)) (seq 1 K)).
  apply combine_map_seq.
Qed.

Lemma nth_error_steps_decode (m : model) (K i : nat) :
  (i < K)%nat ->
  nth_error (steps (decode m (Z.of_nat K))) i
  = Some (interp_P m (Z.of_nat i), interp_P m (Z.of_nat i + 1)).
Proof.
  intros Hi. rewrite steps_decode.
  rewrite nth_error_map, nth_error_seq.
  destruct (Nat.ltb_spec i K); [|lia]. simpl. do 3 f_equal. lia.
Qed.

Section Slots.

Variable l : list (Z * Z).
Variable m : model.
Hypothesis Hm : euler_model l m.

Lemma slot_lt (e : nat) : (e < length l)%nat -> (slot m e < length l)%nat.
Proof.
  intros He. destruct Hm as (_ & Hrange & _). unfold slot.
  specialize (Hrange (Z.of_nat e)). lia.
Qed.

Lemma slot_spec (e : nat) :
  (e < length l)%nat -> Z.of_nat (slot m e) = interp_t m (Z.of_nat e).
Proof.
  intros He. destruct Hm as (_ & Hrange & _). unfold slot.
  specialize (Hrange (Z.of_nat e)). lia.
Qed.

Lemma slot_inj (e e' : nat) :
  (e < length l)%nat -> (e' < length l)%nat -> slot m e = slot m e' -> e = e'.
Proof.
  intros He He' Heq. destruct (Nat.eq_dec e e') as [|Hne]; [assumption|].
  exfalso. pose proof (slot_spec e He) as H1. pose proof (slot_spec e' He') as H2.
  destruct Hm as (_ & _ & Hinj).
  apply (Hinj (Z.of_nat e) (Z.of_nat e')); lia.
Qed.

(** Injective into a range of the same size: the slots are a permutation. *)
Lemma slot_perm :
  Permutation (map (slot m) (seq 0 (length l))) (seq 0 (length l)).
Proof.
  apply NoDup_Permutation_bis.
  - apply NoDup_nth_error. intros i j Hi Heq.
    rewrite length_map, length_seq in Hi.
    rewrite !nth_error_map, !nth_error_seq in Heq.
    destruct (Nat.ltb_spec i (length l)); [|lia].
    destruct (Nat.ltb_spec j (length l)); [|discriminate].
    simpl in Heq. injection Heq as Heq. now apply slot_inj.
  - now rewrite length_map.
  - intros i Hi. apply in_map_iff in Hi. destruct Hi as (e & <- & He).
    apply in_seq in He. apply in_seq. pose proof (slot_lt e). lia.
Qed.

Lemma slot_surj (i : nat) :
  (i < length l)%nat -> exists e, (e < length l)%nat /\ slot m e = i.
Proof.
  intros Hi.
  assert (Hin : In i (map (slot m) (seq 0 (length l)))).
  { apply (Permutation_in _ (Permutation_sym slot_perm)), in_seq. lia. }
  apply in_map_iff in Hin. destruct Hin as (e & <- & He).
  apply in_seq in He. exists e. split; [lia|reflexivity].
Qed.

Lemma slot_step (e : nat) (u v : Z) :
  nth_error l e = Some (u, v) ->
  let step := (interp_P m (Z.of_nat (slot m e)), interp_P m (Z.of_nat (slot m e) + 1)) in
  step = (u, v) \/ step = (v, u).
Proof.
  intros He.
  assert (Hlt : (e < length l)%nat) by (apply nth_error_Some; congruence).
  simpl. rewrite (slot_spec e Hlt).
  destruct Hm as (Hedges & _ & _).
  destruct (Hedges e u v He) as [[-> ->]|[-> ->]]; auto.
Qed.

Lemma decode_covers :
  covers l (decode m (Z.of_nat (length l))) (slot m).
Proof.
  split; [|split].
  - intros e u v He.
    assert (Hlt : (e < length l)%nat) by (apply nth_error_Some; congruence).
    rewrite (nth_error_steps_decode m _ _ (slot_lt e Hlt)).
    destruct (slot_step e u v He) as [-> | ->]; auto.
  - apply slot_inj.
  - intros i Hi. rewrite steps_decode, length_map, length_seq in Hi.
    now apply slot_surj.
Qed.

Lemma undirected_swap (u v : Z) : undirected (v, u) = undirected (u, v).
Proof.
  unfold undirected. simpl.
  destruct (Z.leb_spec v u), (Z.leb_spec u v); try reflexivity; try lia.
  f_equal; lia.
Qed.

(** Without their directions, the steps of the decoded path are the
    occurrences, rearranged. *)
Lemma decode_perm :
  Permutation (map undirected (steps (decode m (Z.of_nat (length l)))))
    (map undirected l).
Proof.
  rewrite steps_decode, map_map.
  set (g := fun i : nat =>
              undirected (interp_P m (Z.of_nat i), interp_P m (Z.of_nat (S i)))).
  apply Permutation_trans with (map g (map (slot m) (seq 0 (length l)))).
  - apply Permutation_sym, Permutation_map, slot_perm.
  - replace (map g (map (slot m) (seq 0 (length l)))) with (map undirected l);
      [apply Permutation_refl|].
    apply nth_error_ext. intros e.
    rewrite !nth_error_map, nth_error_seq.
    destruct (nth_error l e) as [[u v]|] eqn:He.
    + assert (Hlt : (e < length l)%nat) by (apply nth_error_Some; congruence).
      destruct (Nat.ltb_spec e (length l)); [|lia]. simpl. f_equal.
      unfold g. replace (Z.of_nat (S (slot m e))) with (Z.of_nat (slot m e) + 1) by lia.
      destruct (slot_step e u v He) as [-> | ->];
        [reflexivity|apply eq_sym, undirected_swap].
    + apply nth_error_None in He.
      destruct (Nat.ltb_spec e (length l)); [lia|reflexivity].
Qed.

End Slots.

(** ** The occurrences of a matrix *)

Lemma In_cell_occurrences (adj : matrix) (i j : Z) (c : Z * Z) :
  In c (cell_occurrences adj i j) <-> c = (i, j) /\ 0 < entry adj i j.
Proof.
  unfold cell_occurrences. split.
  - intros Hin. pose proof (repeat_spec _ _ _ Hin) as ->. split; [reflexivity|].
    destruct (Z.to_nat (entry adj i j)) eqn:Hn; [contradiction|lia].
  - intros [-> Hpos].
    destruct (Z.to_nat (entry adj i j)) eqn:Hn; [lia|now left].
Qed.

Lemma In_edge_occurrences (adj : matrix) (i j : Z) :
  In (i, j) (edge_occurrences adj) <->
  0 <= i <= j /\ j < shape0 adj /\ 0 < entry adj i j.
Proof.
  unfold edge_occurrences. rewrite in_flat_map. split.
  - intros (i' & Hi' & Hin). apply in_flat_map in Hin.
    destruct Hin as (j' & Hj' & Hin). apply In_cell_occurrences in Hin.
    destruct Hin as [Heq Hpos]. injection Heq as -> ->.
    apply In_range in Hi', Hj'. lia.
  - intros (Hi & Hj & Hpos). exists i. split; [apply In_range; lia|].
    apply in_flat_map. exists j. split; [apply In_range; lia|].
    now apply In_cell_occurrences.
Qed.

Lemma edge_occurrences_ordered (adj : matrix) :
  Forall (fun c => fst c <= snd c) (edge_occurrences adj).
Proof.
  apply Forall_forall. intros [i j] Hin. apply In_edge_occurrences in Hin.
  simpl. lia.
Qed.

Lemma undirected_ordered (l : list (Z * Z)) :
  Forall (fun c => fst c <= snd c) l -> map undirected l = l.
Proof.
  induction 1 as [|c l Hc _ IH]; [reflexivity|]. simpl. rewrite IH. f_equal.
  unfold undirected. destruct (Z.leb_spec (fst c) (snd c)); [reflexivity|lia].
Qed.

Lemma sum_list_app (l1 l2 : list Z) :
  sum_list (l1 ++ l2) = sum_list l1 + sum_list l2.
Proof. induction l1 as [|a l1 IH]; simpl; [reflexivity|rewrite IH; lia]. Qed.

Lemma sum_list_ext (A : Type) (f g : A -> Z) (l : list A) :
  (forall x, In x l -> f x = g x) ->
  sum_list (map f l) = sum_list (map g l).
Proof.
  induction l as [|a l IH]; intros H; simpl; [reflexivity|].
  rewrite (H a (or_introl eq_refl)), IH; [reflexivity|].
  intros x Hx. apply H. now right.
Qed.

Lemma sum_list_flat_map (A B : Type) (f : B -> Z) (g : A -> list B) (l : list A) :
  sum_list (map f (flat_map g l))
  = sum_list (map (fun x => sum_list (map f (g x))) l).
Proof.
  induction l as [|a l IH]; simpl; [reflexivity|].
  now rewrite map_app, sum_list_app, IH.
Qed.

Lemma length_sum_list (A : Type) (l : list A) :
  Z.of_nat (length l) = sum_list (map (fun _ => 1) l).
Proof.
  induction l as [|a l IH]; [reflexivity|].
  cbn [length map]. unfold sum_list in *. cbn [fold_right]. lia.
Qed.

Lemma sum_list_repeat (A : Type) (f : A -> Z) (x : A) (n : nat) :
  sum_list (map f (repeat x n)) = Z.of_nat n * f x.
Proof.
  induction n as [|n IH]; [reflexivity|].
  cbn [repeat map]. unfold sum_list in *. cbn [fold_right]. lia.
Qed.

(** The number of occurrences: every upper-triangle entry, negative ones
    counted as zero (a negative [range] is empty). *)
Lemma length_edge_occurrences (adj : matrix) :
  Z.of_nat (length (edge_occurrences adj))
  = sum_list
      (map (fun i => sum_list (map (fun j => Z.max 0 (entry adj i j))
                                 (range i (shape0 adj))))
         (range 0 (shape0 adj))).
Proof.
  rewrite length_sum_list. unfold edge_occurrences.
  rewrite sum_list_flat_map. apply sum_list_ext. intros i _.
  rewrite sum_list_flat_map. apply sum_list_ext. intros j _.
  unfold cell_occurrences. rewrite sum_list_repeat. lia.
Qed.

Lemma entry_non_negative (adj : matrix) (i j : Z) :
  non_negative adj -> 0 <= entry adj i j.
Proof.
  unfold non_negative, entry. intros Hnn.
  destruct (nth_error adj (Z.to_nat i)) as [row|] eqn:Hrow.
  - rewrite (nth_error_nth _ _ _ Hrow).
    rewrite Forall_forall in Hnn. specialize (Hnn row (nth_error_In _ _ Hrow)).
    destruct (nth_error row (Z.to_nat j)) as [a|] eqn:Ha.
    + rewrite (nth_error_nth _ _ _ Ha).
      rewrite Forall_forall in Hnn. apply Hnn. eapply nth_error_In, Ha.
    + apply nth_error_None in Ha. rewrite nth_overflow; [lia|assumption].
  - apply nth_error_None in Hrow. rewrite (nth_overflow adj); [|assumption].
    destruct (Z.to_nat j); simpl; lia.
Qed.

Lemma length_edge_occurrences_sum (adj : matrix) :
  non_negative adj ->
  Z.of_nat (length (edge_occurrences adj)) = upper_sum adj.
Proof.
  intros Hnn. rewrite length_edge_occurrences. unfold upper_sum.
  apply sum_list_ext. intros i _. apply sum_list_ext. intros j _.
  pose proof (entry_non_negative adj i j Hnn). lia.
Qed.

Lemma count_occ_flat_map_one (A B : Type)
  (dec : forall x y : B, {x = y} + {x <> y}) (g : A -> list B) (l : list A)
  (a : A) (b : B) :
  NoDup l -> In a l -> (forall x, In x l -> x <> a -> ~ In b (g x)) ->
  count_occ dec (flat_map g l) b = count_occ dec (g a) b.
Proof.
  induction l as [|x l IH]; intros Hnd Hin Hother; [contradiction|].
  simpl. rewrite count_occ_app. inversion Hnd as [|? ? Hx Hnd']; subst.
  destruct Hin as [->|Hin].
  - replace (count_occ dec (flat_map g l) b) with 0%nat; [lia|].
    symmetry. apply count_occ_not_In. intros Hb. apply in_flat_map in Hb.
    destruct Hb as (y & Hy & Hb). apply (Hother y); [now right| |assumption].
    intros ->. contradiction.
  - rewrite IH; try assumption.
    + replace (count_occ dec (g x) b) with 0%nat; [lia|].
      symmetry. apply count_occ_not_In. apply Hother; [now left|].
      intros ->. contradiction.
    + intros y Hy. apply Hother. now right.
Qed.

(** Every cell of the upper triangle contributes its multiplicity, and
    nothing else contributes. *)
Lemma count_edge_occurrences (adj : matrix) (i j : Z) :
  0 <= i <= j -> j < shape0 adj ->
  count_occ pair_eq_dec (edge_occurrences adj) (i, j) = Z.to_nat (entry adj i j).
Proof.
  intros Hi Hj. unfold edge_occurrences.
  rewrite (count_occ_flat_map_one _ _ pair_eq_dec _ _ i).
  - rewrite (count_occ_flat_map_one _ _ pair_eq_dec _ _ j).
    + unfold cell_occurrences. rewrite count_occ_repeat_eq; reflexivity.
    + apply NoDup_range.
    + apply In_range. lia.
    + intros j' _ Hne Hin. apply In_cell_occurrences in Hin.
      destruct Hin as [Heq _]. congruence.
  - apply NoDup_range.
  - apply In_range. lia.
  - intros i' _ Hne Hin. apply in_flat_map in Hin.
    destruct Hin as (j' & _ & Hin). apply In_cell_occurrences in Hin.
    destruct Hin as [Heq _]. congruence.
Qed.

Lemma assertion_at (adj : matrix) (k : Z) (s : list formula) :
  encode adj = Ok (k, s) ->
  k = Z.of_nat (length (edge_occurrences adj)) /\
  (forall e u v, nth_error (edge_occurrences adj) e = Some (u, v) ->
     nth_error s e = Some (edge_assertion (Z.of_nat e) u v)).
Proof.
  intros Hrun. pose proof (encode_Ok_readable _ _ Hrun) as Hr.
  rewrite (encode_readable adj Hr) in Hrun. injection Hrun as <- <-.
  split; [reflexivity|].
  intros e u v He. rewrite nth_error_app1.
  - rewrite nth_error_edge_assertions, He. reflexivity.
  - rewrite length_edge_assertions. apply nth_error_Some. congruence.
Qed.

(** * Euler's theorem for lists of edge occurrences *)

(** ** Degrees *)

Lemma sum_list_perm (l l' : list Z) :
  Permutation l l' -> sum_list l = sum_list l'.
Proof.
  unfold sum_list. induction 1; simpl; lia.
Qed.

Lemma sum_list_nonzero (A : Type) (f : A -> Z) (l : list A) :
  sum_list (map f l) <> 0 -> exists x, In x l /\ f x <> 0.
Proof.
  induction l as [|a l IH]; simpl; [easy|]. intros Hs.
  destruct (Z.eq_dec (f a) 0) as [Hz|Hz].
  - destruct IH as (x & Hx & Hfx); [lia|]. exists x. auto.
  - exists a. auto.
Qed.

Lemma deg_cons (c : Z * Z) (l : list (Z * Z)) (v : Z) :
  deg (c :: l) v = incidence v c + deg l v.
Proof. reflexivity. Qed.

Lemma deg_app (l1 l2 : list (Z * Z)) (v : Z) :
  deg (l1 ++ l2) v = deg l1 v + deg l2 v.
Proof. unfold deg. now rewrite map_app, sum_list_app. Qed.

Lemma deg_perm (l l' : list (Z * Z)) (v : Z) :
  Permutation l l' -> deg l v = deg l' v.
Proof. intros Hp. unfold deg. now apply sum_list_perm, Permutation_map. Qed.

Lemma incidence_swap (v a b : Z) : incidence v (b, a) = incidence v (a, b).
Proof. unfold incidence. simpl. lia. Qed.

Lemma incidence_undirected (v : Z) (c : Z * Z) :
  incidence v (undirected c) = incidence v c.
Proof.
  unfold undirected. destruct c as [a b]. simpl.
  destruct (a <=? b); [reflexivity|apply incidence_swap].
Qed.

Lemma deg_undirected (l : list (Z * Z)) (v : Z) :
  deg (map undirected l) v = deg l v.
Proof.
  unfold deg. rewrite map_map. apply sum_list_ext. intros c _.
  apply incidence_undirected.
Qed.

Lemma odd_at_vertex (v a : Z) : Z.odd (at_vertex v a) = (a =? v).
Proof. unfold at_vertex. now destruct (a =? v). Qed.

Lemma odd_incidence (v a b : Z) :
  Z.odd (incidence v (a, b)) = xorb (a =? v) (b =? v).
Proof. unfold incidence. simpl. now rewrite Z.odd_add, !odd_at_vertex. Qed.

Lemma incidence_nonzero (v a b : Z) :
  incidence v (a, b) <> 0 -> a = v \/ b = v.
Proof.
  unfold incidence, at_vertex. simpl.
  destruct (Z.eqb_spec a v), (Z.eqb_spec b v); auto. lia.
Qed.

Lemma incidence_non_negative (v : Z) (c : Z * Z) : 0 <= incidence v c.
Proof.
  unfold incidence, at_vertex.
  destruct (fst c =? v), (snd c =? v); lia.
Qed.

Lemma deg_nonzero_linked (l : list (Z * Z)) (v : Z) :
  deg l v <> 0 -> exists u, linked l v u.
Proof.
  intros Hd. apply sum_list_nonzero in Hd. destruct Hd as ([a b] & Hin & Hnz).
  apply incidence_nonzero in Hnz. destruct Hnz as [-> | ->].
  - exists b. now left.
  - exists a. now right.
Qed.

Lemma deg_nth (l : list (Z * Z)) (v : Z) :
  deg l v
  = sum_list (map (fun e => incidence v (nth e l (0, 0))) (seq 0 (length l))).
Proof.
  induction l as [|c l IH]; [reflexivity|].
  rewrite deg_cons, IH. cbn [length seq map]. rewrite <- seq_shift, map_map.
  reflexivity.
Qed.

(** ** Chains *)

Lemma chain_app (x z y : Z) (w1 w2 : list dart) :
  chain x w1 z -> chain z w2 y -> chain x (w1 ++ w2) y.
Proof.
  induction 1 as [x|d w1 z H1 IH]; intros H2; [assumption|].
  simpl. constructor. now apply IH.
Qed.

Lemma chain_split (x y : Z) (w1 w2 : list dart) :
  chain x (w1 ++ w2) y -> exists z, chain x w1 z /\ chain z w2 y.
Proof.
  revert x. induction w1 as [|d w1 IH]; intros x H.
  - exists x. split; [constructor|assumption].
  - simpl in H. inversion H as [|d' w' y' Hrest]; subst.
    destruct (IH _ Hrest) as (z & H1 & H2). exists z.
    split; [now constructor|assumption].
Qed.

Lemma chain_single (d : dart) : chain (src d) [d] (dst d).
Proof. repeat constructor. Qed.

Lemma chain_parity (x y : Z) (w : list dart) (v : Z) :
  chain x w y -> Z.odd (deg (map ends w) v) = xorb (x =? v) (y =? v).
Proof.
  induction 1 as [x|d w y H IH].
  - now rewrite xorb_nilpotent.
  - cbn [map]. rewrite deg_cons, Z.odd_add, IH.
    destruct d as [e [a b]]. unfold ends, src, dst. cbn [fst snd].
    rewrite odd_incidence. now destruct (a =? v), (b =? v), (y =? v).
Qed.

Lemma chain_next (x y : Z) (w : list dart) (i : nat) (d : dart) :
  chain x w y -> nth_error w i = Some d ->
  match nth_error w (S i) with Some d' => src d' | None => y end = dst d.
Proof.
  intros H. revert i. induction H as [x|d0 w y H IH]; intros i Hi.
  - destruct i; discriminate.
  - destruct i as [|i].
    + injection Hi as ->. simpl. inversion H; subst; reflexivity.
    + simpl in Hi. apply (IH i Hi).
Qed.

Lemma chain_first (x y : Z) (w : list dart) :
  chain x w y ->
  match nth_error w 0 with Some d => src d | None => y end = x.
Proof. destruct 1; reflexivity. Qed.

Lemma on_trail_split (x y z : Z) (w : list dart) :
  chain x w y -> on_trail w z ->
  exists w1 w2, w = w1 ++ w2 /\ chain x w1 z /\ chain z w2 y.
Proof.
  intros Hc (d & Hd & Hz). apply in_split in Hd. destruct Hd as (wa & wb & ->).
  destruct (chain_split _ _ _ _ Hc) as (z0 & Ha & Hb).
  inversion Hb as [|d' w' y' Hrest]; subst.
  destruct Hz as [<- | <-].
  - exists wa, (d :: wb). auto.
  - exists (wa ++ [d]), wb. rewrite <- app_assoc. split; [reflexivity|].
    split; [|assumption]. apply (chain_app _ (src d)); [assumption|].
    apply chain_single.
Qed.

(** ** Trails and the occurrences they leave *)

Lemma dart_ok_lt (l : list (Z * Z)) (d : dart) :
  dart_ok l d -> (edge_of d < length l)%nat.
Proof. intros [H|H]; apply nth_error_Some; congruence. Qed.

Lemma dart_ok_linked (l : list (Z * Z)) (d : dart) :
  dart_ok l d -> linked l (src d) (dst d).
Proof. intros [H|H]; apply nth_error_In in H; [now left|now right]. Qed.

Lemma dart_ok_incidence (l : list (Z * Z)) (d : dart) (v : Z) :
  dart_ok l d -> incidence v (nth (edge_of d) l (0, 0)) = incidence v (ends d).
Proof.
  destruct d as [e [a b]]. unfold dart_ok, edge_of, ends, src, dst. cbn [fst snd].
  intros [H|H]; rewrite (nth_error_nth _ _ _ H);
    [reflexivity|apply incidence_swap].
Qed.

Lemma In_unused (l : list (Z * Z)) (w : list dart) (e : nat) :
  In e (unused l w) <-> (e < length l)%nat /\ ~ In e (map edge_of w).
Proof.
  unfold unused. rewrite filter_In, in_seq, negb_true_iff. split.
  - intros [H1 H2]. split; [lia|]. intros Hin.
    apply not_true_iff_false in H2. apply H2, existsb_exists.
    exists e. split; [assumption|apply Nat.eqb_refl].
  - intros [H1 H2]. split; [lia|]. apply not_true_iff_false. intros Hex.
    apply existsb_exists in Hex. destruct Hex as (e' & Hin & Heq).
    apply Nat.eqb_eq in Heq. subst. contradiction.
Qed.

Lemma used_unused_perm (l : list (Z * Z)) (w : list dart) :
  trail l w -> Permutation (map edge_of w ++ unused l w) (seq 0 (length l)).
Proof.
  intros [Hok Hnd]. apply NoDup_Permutation.
  - apply NoDup_app; [assumption|apply NoDup_filter, seq_NoDup|].
    intros e He Hu. apply In_unused in Hu. tauto.
  - apply seq_NoDup.
  - intros e. rewrite in_app_iff, In_unused, in_seq. split.
    + intros [He|[He _]]; [|lia]. apply in_map_iff in He.
      destruct He as (d & <- & Hd). rewrite Forall_forall in Hok.
      pose proof (dart_ok_lt _ _ (Hok d Hd)). lia.
    + intros He. destruct (in_dec Nat.eq_dec e (map edge_of w)); [now left|].
      right. split; [lia|assumption].
Qed.

Lemma length_trail (l : list (Z * Z)) (w : list dart) :
  trail l w -> (length w + length (unused l w) = length l)%nat.
Proof.
  intros Ht. apply used_unused_perm, Permutation_length in Ht.
  now rewrite length_app, length_map, length_seq in Ht.
Qed.

Lemma deg_trail (l : list (Z * Z)) (w : list dart) (v : Z) :
  trail l w ->
  deg l v
  = deg (map ends w) v
    + sum_list (map (fun e => incidence v (nth e l (0, 0))) (unused l w)).
Proof.
  intros Ht. rewrite deg_nth.
  rewrite <- (sum_list_perm _ _ (Permutation_map _ (used_unused_perm l w Ht))).
  rewrite map_app, sum_list_app. f_equal. unfold deg. rewrite !map_map.
  apply sum_list_ext. intros d Hd. apply dart_ok_incidence.
  destruct Ht as [Hok _]. rewrite Forall_forall in Hok. auto.
Qed.

Lemma deg_covering (l : list (Z * Z)) (w : list dart) (v : Z) :
  trail l w -> length w = length l -> deg (map ends w) v = deg l v.
Proof.
  intros Ht Hlen. rewrite (deg_trail l w v Ht).
  pose proof (length_trail l w Ht) as Hu.
  destruct (unused l w); [simpl; lia|simpl in Hu; lia].
Qed.

Lemma unused_edge_at (l : list (Z * Z)) (w : list dart) (y : Z) :
  trail l w -> deg l y <> deg (map ends w) y ->
  exists e u v,
    In e (unused l w) /\ nth_error l e = Some (u, v) /\ (u = y \/ v = y).
Proof.
  intros Ht Hne. rewrite (deg_trail l w y Ht) in Hne.
  assert (Hs : sum_list (map (fun e => incidence y (nth e l (0, 0))) (unused l w))
               <> 0) by lia.
  apply sum_list_nonzero in Hs. destruct Hs as (e & He & Hnz).
  pose proof (proj1 (In_unused _ _ _) He) as [Hlt _].
  destruct (nth_error l e) as [[u v]|] eqn:Hn;
    [|apply nth_error_None in Hn; lia].
  exists e, u, v. split; [assumption|]. split; [exact Hn|].
  rewrite (nth_error_nth _ _ _ Hn) in Hnz. now apply incidence_nonzero in Hnz.
Qed.

Lemma trail_nil (l : list (Z * Z)) : trail l [].
Proof. split; constructor. Qed.

Lemma trail_snoc (l : list (Z * Z)) (w : list dart) (e : nat) (u v : Z) :
  trail l w -> In e (unused l w) ->
  nth_error l e = Some (u, v) \/ nth_error l e = Some (v, u) ->
  trail l (w ++ [(e, (u, v))]).
Proof.
  intros [Hok Hnd] He Hn. apply In_unused in He. split.
  - apply Forall_app. split; [assumption|]. constructor; [exact Hn|constructor].
  - rewrite map_app. apply NoDup_app; [assumption| |].
    + constructor; [intros []|constructor].
    + intros a Ha [<-|[]]. tauto.
Qed.

Lemma trail_rotate (l : list (Z * Z)) (w1 w2 : list dart) :
  trail l (w1 ++ w2) -> trail l (w2 ++ w1).
Proof.
  intros [Hok Hnd]. split.
  - apply Forall_app in Hok. apply Forall_app. tauto.
  - rewrite map_app in *.
    eapply Permutation_NoDup; [apply Permutation_app_comm|exact Hnd].
Qed.

Lemma unused_rotate (l : list (Z * Z)) (w1 w2 : list dart) (e : nat) :
  In e (unused l (w1 ++ w2)) -> In e (unused l (w2 ++ w1)).
Proof. rewrite !In_unused, !map_app, !in_app_iff. tauto. Qed.

(** From a vertex of the trail towards an unused occurrence, the first
    occurrence that leaves the trail starts on the trail. *)
Lemma unused_edge_on_trail (l : list (Z * Z)) (w : list dart) (a b : Z) :
  trail l w -> clos_refl_trans_1n Z (linked l) a b -> on_trail w a ->
  (exists e u v,
      In e (unused l w) /\ nth_error l e = Some (u, v) /\ (u = b \/ v = b)) ->
  exists z e u v,
    on_trail w z /\ In e (unused l w) /\ nth_error l e = Some (u, v) /\
    (u = z \/ v = z).
Proof.
  intros Ht Hr. induction Hr as [a|a a' b Hstep Hrest IH]; intros Hon Hun.
  - destruct Hun as (e & u & v & Hun). now exists a, e, u, v.
  - assert (He : exists e, nth_error l e = Some (a, a') \/
                           nth_error l e = Some (a', a)).
    { destruct Hstep as [H|H]; apply In_nth_error in H; destruct H as [e He];
        exists e; auto. }
    destruct He as [e He].
    destruct (in_dec Nat.eq_dec e (map edge_of w)) as [Hused|Hfree].
    + apply IH; [|assumption]. apply in_map_iff in Hused.
      destruct Hused as (d & Hde & Hd). exists d. split; [assumption|].
      destruct Ht as [Hok _]. rewrite Forall_forall in Hok.
      specialize (Hok d Hd). unfold dart_ok in Hok. rewrite Hde in Hok.
      destruct He as [He|He], Hok as [Hok|Hok]; rewrite He in Hok;
        injection Hok as Ha Hb; (left; congruence) || (right; congruence).
    + assert (Hin : In e (unused l w)).
      { apply In_unused. split; [|assumption]. apply nth_error_Some.
        destruct He as [He|He]; congruence. }
      destruct He as [He|He]; [exists a, e, a, a'|exists a, e, a', a]; auto.
Qed.

(** ** Growing a trail *)

Lemma trail_append (l : list (Z * Z)) (w : list dart) (x z : Z) (e : nat)
  (u v : Z) :
  trail l w -> chain x w z -> In e (unused l w) ->
  nth_error l e = Some (u, v) -> u = z \/ v = z ->
  exists w' x' y',
    trail l w' /\ chain x' w' y' /\ length w' = S (length w).
Proof.
  intros Ht Hc He Hn [-> | ->].
  - exists (w ++ [(e, (z, v))]), x, v. split; [apply trail_snoc; auto|].
    split; [|rewrite length_app; simpl; lia].
    apply (chain_app _ z); [assumption|apply (chain_single (e, (z, v)))].
  - exists (w ++ [(e, (z, u))]), x, u. split; [apply trail_snoc; auto|].
    split; [|rewrite length_app; simpl; lia].
    apply (chain_app _ z); [assumption|apply (chain_single (e, (z, u)))].
Qed.

(** In a connected list with even degrees, a trail that leaves an
    occurrence unused is not the longest: an open trail goes on from its
    end, a closed one is turned to start where an unused occurrence
    leaves it. *)
Lemma trail_extend (l : list (Z * Z)) (w : list dart) (x y : Z) :
  edge_connected l -> (forall v, Z.odd (deg l v) = false) ->
  trail l w -> chain x w y -> (length w < length l)%nat ->
  exists w' x' y',
    trail l w' /\ chain x' w' y' /\ length w' = S (length w).
Proof.
  intros Hconn Heven Ht Hc Hlen.
  destruct (Z.eq_dec x y) as [<-|Hxy].
  - assert (Hfree : exists e0 u0 v0,
               In e0 (unused l w) /\ nth_error l e0 = Some (u0, v0)).
    { pose proof (length_trail l w Ht) as Hu.
      destruct (unused l w) as [|e0 r] eqn:Hun; [simpl in Hu; lia|].
      assert (Hin : In e0 (unused l w)) by (rewrite Hun; now left).
      pose proof (proj1 (In_unused _ _ _) Hin) as [Hlt _].
      destruct (nth_error l e0) as [[u0 v0]|] eqn:Hn;
        [|apply nth_error_None in Hn; lia].
      exists e0, u0, v0. rewrite <- Hun. auto. }
    destruct Hfree as (e0 & u0 & v0 & He0 & Hn0).
    destruct w as [|d0 w0].
    + apply (trail_append l [] u0 u0 e0 u0 v0); auto. constructor.
    + assert (Hx : x = src d0) by (inversion Hc; reflexivity).
      assert (Hd0 : dart_ok l d0).
      { destruct Ht as [Hok _]. now inversion Hok. }
      assert (Hreach : reach l x u0).
      { rewrite Hx. apply (Hconn _ (dst d0) _ v0).
        - now apply dart_ok_linked.
        - left. eapply nth_error_In, Hn0. }
      destruct (unused_edge_on_trail l (d0 :: w0) x u0 Ht)
        as (z & e & u & v & Hz & He & Hn & Huv).
      { now apply clos_rt_rt1n. }
      { exists d0. split; [now left|]. left. now symmetry. }
      { exists e0, u0, v0. auto. }
      destruct (on_trail_split _ _ _ _ Hc Hz) as (w1 & w2 & Hw & H1 & H2).
      rewrite Hw in Ht, He. apply trail_rotate in Ht. apply unused_rotate in He.
      destruct (trail_append l (w2 ++ w1) z z e u v Ht) as (w' & x' & y' & H');
        auto.
      { now apply (chain_app _ x). }
      exists w', x', y'. rewrite Hw.
      rewrite length_app, Nat.add_comm, <- length_app. exact H'.
  - assert (Hodd : Z.odd (deg (map ends w) y) = true).
    { rewrite (chain_parity _ _ _ y Hc), Z.eqb_refl.
      destruct (Z.eqb_spec x y); [contradiction|reflexivity]. }
    destruct (unused_edge_at l w y Ht) as (e & u & v & He & Hn & Huv).
    { intros Heq. specialize (Heven y). congruence. }
    now apply (trail_append l w x y e u v).
Qed.

(** Every trail of such a list grows into one through all occurrences. *)
Lemma trail_complete (l : list (Z * Z)) :
  edge_connected l -> (forall v, Z.odd (deg l v) = false) ->
  forall (n : nat) (w : list dart) (x y : Z),
    trail l w -> chain x w y -> (length l - length w <= n)%nat ->
    exists w' x' y', trail l w' /\ chain x' w' y' /\ length w' = length l.
Proof.
  intros Hconn Heven. induction n as [|n IH]; intros w x y Ht Hc Hn;
    pose proof (length_trail l w Ht) as Hu.
  - exists w, x, y. repeat split; try assumption; try apply Ht. lia.
  - destruct (Nat.eq_dec (length w) (length l)) as [Heq|Hne].
    + exists w, x, y. repeat split; try assumption; apply Ht.
    + destruct (trail_extend l w x y Hconn Heven Ht Hc) as (w' & x' & y' & Ht' & Hc' & Hl');
        [lia|].
      apply (IH w' x' y' Ht' Hc'). lia.
Qed.

(** ** From a trail through all occurrences to a model *)

Lemma index_of_spec (e : nat) (ids : list nat) :
  In e ids ->
  (index_of e ids < length ids)%nat /\ nth_error ids (index_of e ids) = Some e.
Proof.
  induction ids as [|e' ids IH]; [contradiction|]. intros Hin. simpl.
  destruct (Nat.eqb_spec e e') as [->|Hne].
  - split; [lia|reflexivity].
  - destruct Hin as [Heq|Hin]; [congruence|].
    destruct (IH Hin). split; [lia|assumption].
Qed.

Lemma covering_ids (l : list (Z * Z)) (w : list dart) (e : nat) :
  trail l w -> length w = length l -> (e < length l)%nat ->
  In e (map edge_of w).
Proof.
  intros Ht Hlen He. pose proof (length_trail l w Ht) as Hu.
  pose proof (used_unused_perm l w Ht) as Hp.
  destruct (unused l w); [|simpl in Hu; lia]. rewrite app_nil_r in Hp.
  apply (Permutation_in _ (Permutation_sym Hp)), in_seq. lia.
Qed.

Lemma model_of_trail_euler (l : list (Z * Z)) (w : list dart) (x y : Z) :
  trail l w -> chain x w y -> length w = length l ->
  euler_model l (model_of_trail w y).
Proof.
  intros Ht Hc Hlen.
  assert (Hidx : forall e, (e < length l)%nat ->
            (index_of e (map edge_of w) < length l)%nat /\
            nth_error (map edge_of w) (index_of e (map edge_of w)) = Some e).
  { intros e He. rewrite <- Hlen, <- (length_map edge_of).
    apply index_of_spec. now apply covering_ids with l. }
  split; [|split].
  - intros e u v He.
    assert (Hlt : (e < length l)%nat) by (apply nth_error_Some; congruence).
    destruct (Hidx e Hlt) as [Hi Hnth]. rewrite nth_error_map in Hnth.
    destruct (nth_error w (index_of e (map edge_of w))) as [d|] eqn:Hd;
      [|discriminate].
    injection Hnth as Hde.
    assert (Hok : dart_ok l d).
    { destruct Ht as [Hok _]. rewrite Forall_forall in Hok.
      eapply Hok, nth_error_In, Hd. }
    pose proof (chain_next _ _ _ _ _ Hc Hd) as Hnext.
    set (i := index_of e (map edge_of w)) in *.
    assert (Hte : interp_t (model_of_trail w y) (Z.of_nat e) = Z.of_nat i).
    { unfold model_of_trail. cbn [interp_t]. now rewrite Nat2Z.id. }
    assert (HP1 : interp_P (model_of_trail w y) (Z.of_nat i) = src d).
    { unfold model_of_trail. cbn [interp_P]. now rewrite Nat2Z.id, Hd. }
    assert (HP2 : interp_P (model_of_trail w y) (Z.of_nat i + 1) = dst d).
    { unfold model_of_trail. cbn [interp_P].
      replace (Z.to_nat (Z.of_nat i + 1)) with (S i) by lia. exact Hnext. }
    unfold pins. rewrite Hte, HP1, HP2.
    unfold dart_ok in Hok. rewrite Hde, He in Hok.
    destruct Hok as [Hok|Hok]; injection Hok as -> ->; auto.
  - intros e He. cbn [model_of_trail interp_t].
    destruct (Hidx (Z.to_nat e)); lia.
  - intros e e' He He' Hne Heq. cbn [model_of_trail interp_t] in Heq.
    apply Nat2Z.inj in Heq.
    destruct (Hidx (Z.to_nat e)) as [_ H1]; [lia|].
    destruct (Hidx (Z.to_nat e')) as [_ H2]; [lia|].
    rewrite Heq in H1. rewrite H1 in H2. injection H2 as H2. lia.
Qed.

(** ** Connected and even, or connected with two odd vertices *)

Lemma euler_circuit (l : list (Z * Z)) :
  edge_connected l -> (forall v, Z.odd (deg l v) = false) ->
  exists w x, trail l w /\ chain x w x /\ length w = length l.
Proof.
  intros Hconn Heven.
  destruct (trail_complete l Hconn Heven (length l) [] 0 0 (trail_nil l)
              (chain_nil 0)) as (w & x & y & Ht & Hc & Hlen); [lia|].
  exists w, x. split; [assumption|]. split; [|assumption].
  destruct (Z.eq_dec x y) as [<-|Hne]; [assumption|]. exfalso.
  pose proof (chain_parity _ _ _ y Hc) as Hp.
  rewrite (deg_covering l w y Ht Hlen), Heven, Z.eqb_refl in Hp.
  destruct (Z.eqb_spec x y); [contradiction|discriminate].
Qed.

Lemma reach_mono (l l' : list (Z * Z)) (u v : Z) :
  (forall a b, linked l a b -> linked l' a b) -> reach l u v -> reach l' u v.
Proof.
  intros Hsub. induction 1 as [a b H| |a b c _ IH1 _ IH2].
  - apply rt_step. now apply Hsub.
  - apply rt_refl.
  - now apply rt_trans with b.
Qed.

Lemma linked_app (l1 l2 : list (Z * Z)) (u v : Z) :
  linked (l1 ++ l2) u v <-> linked l1 u v \/ linked l2 u v.
Proof. unfold linked. rewrite !in_app_iff. tauto. Qed.

Lemma euler_two_odd (l : list (Z * Z)) (a b : Z) :
  edge_connected l -> a <> b ->
  (forall v, Z.odd (deg l v) = xorb (a =? v) (b =? v)) ->
  exists w x y, trail l w /\ chain x w y /\ length w = length l.
Proof.
  intros Hconn Hab Hodd.
  assert (Ha : exists u, linked l a u).
  { apply deg_nonzero_linked. intros Hz. specialize (Hodd a).
    rewrite Hz, Z.eqb_refl in Hodd.
    destruct (Z.eqb_spec b a); [congruence|discriminate]. }
  assert (Hb : exists u, linked l b u).
  { apply deg_nonzero_linked. intros Hz. specialize (Hodd b).
    rewrite Hz, Z.eqb_refl in Hodd.
    destruct (Z.eqb_spec a b); [congruence|discriminate]. }
  assert (Htouched : forall u u', linked (l ++ [(a, b)]) u u' ->
                                  exists u'', linked l u u'').
  { intros u u' [H|H]; apply in_app_iff in H;
      destruct H as [H|[H|[]]].
    - exists u'. now left.
    - injection H as <- <-. exact Ha.
    - exists u'. now right.
    - injection H as <- <-. exact Hb. }
  destruct (euler_circuit (l ++ [(a, b)])) as (w & x & Ht & Hc & Hlen).
  { intros u u' v v' Hu Hv.
    destruct (Htouched _ _ Hu) as [u'' Hu'], (Htouched _ _ Hv) as [v'' Hv'].
    apply (reach_mono l); [|now apply (Hconn u u'' v v'')].
    intros p q H. apply linked_app. now left. }
  { intros v. rewrite deg_app, Z.odd_add, Hodd, deg_cons, Z.odd_add.
    rewrite odd_incidence. now destruct (a =? v), (b =? v). }
  rewrite length_app, Nat.add_comm in Hlen. simpl in Hlen.
  assert (Hin : In (length l) (map edge_of w)).
  { apply (covering_ids (l ++ [(a, b)])); [assumption| |];
      rewrite length_app; simpl; lia. }
  apply in_map_iff in Hin. destruct Hin as (d & Hde & Hd).
  apply in_split in Hd. destruct Hd as (w1 & w2 & ->).
  destruct (chain_split _ _ _ _ Hc) as (z & H1 & H2).
  inversion H2 as [|d' w' y' Hrest]; subst d' w' y' z.
  exists (w2 ++ w1), (dst d), (src d). split; [|split].
  - destruct Ht as [Hok Hnd]. rewrite map_app in Hnd. simpl in Hnd.
    rewrite Hde in Hnd. pose proof (NoDup_remove _ _ _ Hnd) as [Hnd' Hout].
    split.
    + apply Forall_forall. intros d' Hd'.
      assert (Hd'' : In d' (w1 ++ w2)) by (apply in_app_iff; apply in_app_iff in Hd'; tauto).
      rewrite Forall_forall in Hok.
      assert (Hok' : dart_ok (l ++ [(a, b)]) d').
      { apply Hok. apply in_app_iff. apply in_app_iff in Hd''.
        destruct Hd''; [now left|right; now right]. }
      assert (Hlt : (edge_of d' < length l)%nat).
      { pose proof (dart_ok_lt _ _ Hok') as Hlt.
        rewrite length_app in Hlt. simpl in Hlt.
        assert (edge_of d' <> length l); [|lia].
        intros Heq. apply Hout. rewrite <- Heq, <- map_app.
        now apply in_map. }
      unfold dart_ok in *. now rewrite nth_error_app1 in Hok'.
    + rewrite map_app.
      eapply Permutation_NoDup; [apply Permutation_app_comm|exact Hnd'].
  - now apply (chain_app _ x).
  - rewrite length_app in *. simpl in Hlen. lia.
Qed.

(** Sufficiency: a connected list whose degrees are all even, or odd at
    exactly two vertices, has an Euler model. *)
Lemma euler_sufficient (l : list (Z * Z)) :
  edge_connected l -> euler_degrees l -> exists m, euler_model l m.
Proof.
  intros Hconn (a & b & Hodd).
  destruct (Z.eq_dec a b) as [->|Hab].
  - destruct (euler_circuit l Hconn) as (w & x & Ht & Hc & Hlen).
    { intros v. rewrite Hodd. apply xorb_nilpotent. }
    exists (model_of_trail w x). now apply (model_of_trail_euler l w x x).
  - destruct (euler_two_odd l a b Hconn Hab Hodd) as (w & x & y & Ht & Hc & Hlen).
    exists (model_of_trail w y). now apply (model_of_trail_euler l w x y).
Qed.

(** ** What a model forces *)

Lemma walk_parity (f : nat -> Z) (a K : nat) (v : Z) :
  Z.odd (deg (map (fun i => (f i, f (S i))) (seq a K)) v)
  = xorb (f a =? v) (f (a + K)%nat =? v).
Proof.
  revert a. induction K as [|K IH]; intros a.
  - rewrite Nat.add_0_r. now rewrite xorb_nilpotent.
  - cbn [seq map]. rewrite deg_cons, Z.odd_add, odd_incidence, IH.
    replace (a + S K)%nat with (S a + K)%nat by lia.
    now destruct (f a =? v), (f (S a) =? v), (f (S a + K)%nat =? v).
Qed.

Lemma linked_sym (l : list (Z * Z)) (u v : Z) : linked l u v -> linked l v u.
Proof. unfold linked. tauto. Qed.

Lemma reach_sym (l : list (Z * Z)) (u v : Z) : reach l u v -> reach l v u.
Proof.
  induction 1 as [a b H| |a b c _ IH1 _ IH2].
  - apply rt_step. now apply linked_sym.
  - apply rt_refl.
  - now apply rt_trans with b.
Qed.

Section Necessity.

Variable l : list (Z * Z).
Variable m : model.
Hypothesis Hm : euler_model l m.

Lemma model_degrees : euler_degrees l.
Proof.
  exists (path_at m 0), (path_at m (length l)). intros v.
  rewrite <- deg_undirected.
  rewrite <- (deg_perm _ _ v (decode_perm l m Hm)).
  rewrite deg_undirected, steps_decode.
  apply (walk_parity (fun i => interp_P m (Z.of_nat i)) 0 (length l) v).
Qed.

Lemma model_step_linked (i : nat) :
  (i < length l)%nat -> linked l (path_at m i) (path_at m (S i)).
Proof.
  intros Hi. destruct (slot_surj l m Hm i Hi) as (e & He & Hslot).
  destruct (nth_error l e) as [[u v]|] eqn:Hn;
    [|apply nth_error_None in Hn; lia].
  pose proof (slot_step l m Hm e u v Hn) as Hstep. simpl in Hstep.
  rewrite Hslot in Hstep. unfold path_at.
  replace (Z.of_nat (S i)) with (Z.of_nat i + 1) by lia.
  apply nth_error_In in Hn.
  destruct Hstep as [Hstep|Hstep]; injection Hstep as -> ->;
    [now left|now right].
Qed.

Lemma model_walk_reach (i j : nat) :
  (i <= j)%nat -> (j <= length l)%nat -> reach l (path_at m i) (path_at m j).
Proof.
  induction 1 as [|j Hij IH]; intros Hj; [apply rt_refl|].
  apply rt_trans with (path_at m j); [apply IH; lia|].
  apply rt_step, model_step_linked. lia.
Qed.

Lemma linked_on_walk (u u' : Z) :
  linked l u u' -> exists i, (i <= length l)%nat /\ path_at m i = u.
Proof.
  intros Hlink.
  assert (He : exists e a b, nth_error l e = Some (a, b) /\ (a = u \/ b = u)).
  { destruct Hlink as [H|H]; apply In_nth_error in H; destruct H as [e He];
      [exists e, u, u'|exists e, u', u]; auto. }
  destruct He as (e & a & b & Hn & Hu).
  assert (Hlt : (e < length l)%nat) by (apply nth_error_Some; congruence).
  pose proof (slot_lt l m Hm e Hlt) as Hslot.
  pose proof (slot_step l m Hm e a b Hn) as Hstep. simpl in Hstep.
  replace (Z.of_nat (slot m e) + 1) with (Z.of_nat (S (slot m e))) in Hstep by lia.
  fold (path_at m (slot m e)) in Hstep. fold (path_at m (S (slot m e))) in Hstep.
  destruct Hstep as [Hstep|Hstep]; injection Hstep as H1 H2;
    destruct Hu as [<- | <-];
    ((exists (slot m e); split; [lia|assumption])
     || (exists (S (slot m e)); split; [lia|assumption])).
Qed.

Lemma model_connected : edge_connected l.
Proof.
  intros u u' v v' Hu Hv.
  destruct (linked_on_walk _ _ Hu) as (i & Hi & <-).
  destruct (linked_on_walk _ _ Hv) as (j & Hj & <-).
  destruct (Nat.le_ge_cases i j).
  - now apply model_walk_reach.
  - apply reach_sym. now apply model_walk_reach.
Qed.

End Necessity.

(** Euler's theorem for a list of edge occurrences. *)
Lemma euler_iff (l : list (Z * Z)) :
  (exists m, euler_model l m) <-> edge_connected l /\ euler_degrees l.
Proof.
  split.
  - intros [m Hm]. split; [now apply (model_connected l m)|].
    now apply (model_degrees l m).
  - intros [Hc Hd]. now apply euler_sufficient.
Qed.

(** * The graph of a valid matrix *)

(** ** Sums over ranges *)

Lemma range_app (lo mid hi : Z) :
  lo <= mid <= hi -> range lo hi = range lo mid ++ range mid hi.
Proof.
  intros H. remember (Z.to_nat (mid - lo)) as n eqn:Hn. revert lo Hn H.
  induction n as [|n IH]; intros lo Hn H.
  - assert (lo = mid) by lia. subst lo. now rewrite (range_nil mid mid) by lia.
  - rewrite (range_cons lo hi), (range_cons lo mid) by lia.
    simpl. f_equal. apply IH; lia.
Qed.

Lemma sum_list_zero (A : Type) (f : A -> Z) (l : list A) :
  (forall x, In x l -> f x = 0) -> sum_list (map f l) = 0.
Proof.
  induction l as [|a l IH]; intros H; simpl; [reflexivity|].
  rewrite (H a (or_introl eq_refl)), IH; [reflexivity|].
  intros x Hx. apply H. now right.
Qed.

Lemma sum_list_add (A : Type) (f g : A -> Z) (l : list A) :
  sum_list (map (fun x => f x + g x) l)
  = sum_list (map f l) + sum_list (map g l).
Proof. induction l as [|a l IH]; simpl; [reflexivity|rewrite IH; lia]. Qed.

Lemma sum_list_scale (A : Type) (f : A -> Z) (c : Z) (l : list A) :
  sum_list (map (fun x => f x * c) l) = sum_list (map f l) * c.
Proof. induction l as [|a l IH]; simpl; [reflexivity|rewrite IH; lia]. Qed.

Lemma at_vertex_other (v a : Z) : a <> v -> at_vertex v a = 0.
Proof. unfold at_vertex. intros H. destruct (Z.eqb_spec a v); [contradiction|reflexivity]. Qed.

Lemma at_vertex_same (v : Z) : at_vertex v v = 1.
Proof. unfold at_vertex. now rewrite Z.eqb_refl. Qed.

(** Summing over a range against the indicator of [v] picks the term at
    [v], if [v] is in the range. *)
Lemma sum_pick (F : Z -> Z) (v lo hi : Z) :
  sum_list (map (fun i => F i * at_vertex v i) (range lo hi))
  = if (lo <=? v) && (v <? hi) then F v else 0.
Proof.
  destruct ((lo <=? v) && (v <? hi)) eqn:Hc.
  - apply andb_true_iff in Hc. destruct Hc as [H1 H2].
    apply Z.leb_le in H1. apply Z.ltb_lt in H2.
    rewrite (range_app lo v hi), (range_cons v hi) by lia.
    rewrite map_app, sum_list_app. cbn [map]. unfold sum_list at 2.
    cbn [fold_right]. fold (sum_list (map (fun i => F i * at_vertex v i)
                                        (range (v + 1) hi))).
    rewrite !sum_list_zero, at_vertex_same; [lia| |].
    + intros i Hi. apply In_range in Hi. rewrite at_vertex_other; lia.
    + intros i Hi. apply In_range in Hi. rewrite at_vertex_other; lia.
  - apply sum_list_zero. intros i Hi. apply In_range in Hi.
    rewrite at_vertex_other; [lia|]. intros ->.
    apply andb_false_iff in Hc. destruct Hc as [Hc|Hc];
      [apply Z.leb_gt in Hc|apply Z.ltb_ge in Hc]; lia.
Qed.

(** ** Degrees of the occurrences against degrees of the matrix *)

Lemma deg_edge_occurrences_sum (adj : matrix) (v : Z) :
  non_negative adj ->
  deg (edge_occurrences adj) v
  = sum_list
      (map (fun i =>
              sum_list (map (fun j => entry adj i j * at_vertex v i
                                      + entry adj i j * at_vertex v j)
                          (range i (shape0 adj))))
         (range 0 (shape0 adj))).
Proof.
  intros Hnn. unfold deg, edge_occurrences.
  rewrite sum_list_flat_map. apply sum_list_ext. intros i _.
  rewrite sum_list_flat_map. apply sum_list_ext. intros j _.
  unfold cell_occurrences. rewrite sum_list_repeat.
  rewrite (Z2Nat.id _ (entry_non_negative adj i j Hnn)).
  unfold incidence. cbn [fst snd]. ring.
Qed.

Lemma deg_edge_occurrences_split (adj : matrix) (v : Z) :
  non_negative adj ->
  deg (edge_occurrences adj) v
  = (if (0 <=? v) && (v <? shape0 adj)
     then sum_list (map (entry adj v) (range v (shape0 adj))) else 0)
    + sum_list
        (map (fun i => if (i <=? v) && (v <? shape0 adj) then entry adj i v else 0)
           (range 0 (shape0 adj))).
Proof.
  intros Hnn. rewrite (deg_edge_occurrences_sum adj v Hnn).
  rewrite (sum_list_ext _ _
             (fun i => sum_list (map (entry adj i) (range i (shape0 adj)))
                       * at_vertex v i
                       + (if (i <=? v) && (v <? shape0 adj)
                          then entry adj i v else 0))).
  - rewrite sum_list_add. f_equal.
    apply (sum_pick
             (fun i => sum_list (map (entry adj i) (range i (shape0 adj))))).
  - intros i _. rewrite sum_list_add, sum_list_scale. f_equal.
    apply (sum_pick (fun j => entry adj i j)).
Qed.

Lemma deg_outside (adj : matrix) (v : Z) :
  non_negative adj -> ~ 0 <= v < shape0 adj ->
  deg (edge_occurrences adj) v = 0.
Proof.
  intros Hnn Hv. rewrite (deg_edge_occurrences_split adj v Hnn).
  replace ((0 <=? v) && (v <? shape0 adj)) with false by lia.
  rewrite sum_list_zero; [reflexivity|].
  intros i Hi. apply In_range in Hi.
  replace ((i <=? v) && (v <? shape0 adj)) with false by lia. reflexivity.
Qed.

Lemma deg_degree (adj : matrix) (v : Z) :
  non_negative adj -> symmetric adj -> 0 <= v < shape0 adj ->
  deg (edge_occurrences adj) v = degree adj v.
Proof.
  intros Hnn Hsym Hv. rewrite (deg_edge_occurrences_split adj v Hnn).
  replace ((0 <=? v) && (v <? shape0 adj)) with true by lia.
  unfold degree.
  rewrite (range_app 0 (v + 1) (shape0 adj)) by lia.
  rewrite !map_app, !sum_list_app.
  rewrite (sum_list_zero _ _ (range (v + 1) (shape0 adj))).
  - rewrite (sum_list_ext _ _ (entry adj v) (range 0 (v + 1))).
    + rewrite (range_snoc 0 v) by lia. rewrite !map_app, !sum_list_app.
      rewrite (range_cons v (shape0 adj)) by lia.
      cbn [map]. unfold sum_list. cbn [fold_right]. lia.
    + intros i Hi. apply In_range in Hi.
      replace ((i <=? v) && (v <? shape0 adj)) with true by lia.
      apply Hsym; lia.
  - intros i Hi. apply In_range in Hi.
    replace ((i <=? v) && (v <? shape0 adj)) with false by lia. reflexivity.
Qed.

(** ** Edges and paths of the occurrences against those of the matrix *)

Lemma linked_adjacent (adj : matrix) (u v : Z) :
  symmetric adj -> (linked (edge_occurrences adj) u v <-> adjacent adj u v).
Proof.
  intros Hsym. unfold linked, adjacent. rewrite !In_edge_occurrences. split.
  - intros [H|H]; [lia|]. rewrite (Hsym u v) by lia. lia.
  - intros (Hu & Hv & Hpos). destruct (Z.le_gt_cases u v); [left; lia|].
    right. rewrite (Hsym v u) by lia. lia.
Qed.

Lemma reach_reachable (adj : matrix) (u v : Z) :
  symmetric adj -> (reach (edge_occurrences adj) u v <-> reachable adj u v).
Proof.
  intros Hsym. unfold reach, reachable. split;
    (induction 1 as [a b H| |a b c _ IH1 _ IH2];
     [apply rt_step; now apply (linked_adjacent adj a b Hsym)
     |apply rt_refl
     |now apply rt_trans with b]).
Qed.

Lemma connected_edge_connected (adj : matrix) :
  symmetric adj -> connected adj -> edge_connected (edge_occurrences adj).
Proof.
  intros Hsym Hconn u u' v v' Hu Hv.
  apply (linked_adjacent adj _ _ Hsym) in Hu, Hv.
  apply (reach_reachable adj _ _ Hsym), Hconn; [apply Hu|apply Hv].
Qed.

Lemma two_components_not_connected (adj : matrix) :
  symmetric adj -> edges_in_two_components adj ->
  ~ edge_connected (edge_occurrences adj).
Proof.
  intros Hsym (u & u' & v & v' & Hu & Hv & Hno) Hconn. apply Hno.
  apply (reach_reachable adj _ _ Hsym), (Hconn u u' v v');
    now apply (linked_adjacent adj _ _ Hsym).
Qed.

(** ** Counting the odd vertices *)

Lemma In_odd_vertices (adj : matrix) (v : Z) :
  non_negative adj -> symmetric adj ->
  (In v (odd_vertices adj) <-> Z.odd (deg (edge_occurrences adj) v) = true).
Proof.
  intros Hnn Hsym. unfold odd_vertices. rewrite filter_In, In_range. split.
  - intros [Hv Hodd]. now rewrite (deg_degree adj v Hnn Hsym Hv).
  - intros Hodd.
    assert (Hv : 0 <= v < shape0 adj).
    { destruct (Z.le_gt_cases 0 v), (Z.lt_ge_cases v (shape0 adj)); try lia;
        rewrite (deg_outside adj v Hnn) in Hodd by lia; discriminate. }
    split; [assumption|]. now rewrite <- (deg_degree adj v Hnn Hsym Hv).
Qed.

Lemma odd_count_degrees (adj : matrix) :
  non_negative adj -> symmetric adj ->
  ((odd_count adj = 0 \/ odd_count adj = 2)%nat
   <-> euler_degrees (edge_occurrences adj)).
Proof.
  intros Hnn Hsym. pose proof (fun v => In_odd_vertices adj v Hnn Hsym) as Hin.
  assert (Hnd : NoDup (odd_vertices adj)) by apply NoDup_filter, NoDup_range.
  unfold odd_count. split.
  - intros [H0|H2].
    + exists 0, 0. intros v. rewrite xorb_nilpotent.
      apply not_true_iff_false. intros Hodd. apply Hin in Hodd.
      destruct (odd_vertices adj); [contradiction|discriminate].
    + destruct (odd_vertices adj) as [|a [|b [|c r]]]; try discriminate.
      exists a, b. intros v.
      assert (Hab : a <> b).
      { inversion Hnd as [|? ? Hna _]. intros ->. apply Hna. now left. }
      destruct (Z.odd (deg (edge_occurrences adj) v)) eqn:Hodd.
      * apply Hin in Hodd. destruct Hodd as [<-|[<-|[]]];
          rewrite Z.eqb_refl;
          [destruct (Z.eqb_spec b a)|destruct (Z.eqb_spec a b)];
          congruence || reflexivity.
      * apply not_true_iff_false in Hodd.
        destruct (Z.eqb_spec a v) as [->|], (Z.eqb_spec b v) as [->|];
          try reflexivity; exfalso; apply Hodd, Hin; simpl; auto.
  - intros (a & b & Hodd). destruct (Z.eq_dec a b) as [->|Hab].
    + left. destruct (odd_vertices adj) as [|v r]; [reflexivity|]. exfalso.
      assert (Hv : Z.odd (deg (edge_occurrences adj) v) = true)
        by (apply Hin; now left).
      rewrite Hodd, xorb_nilpotent in Hv. discriminate.
    + right. change 2%nat with (length [a; b]). apply Permutation_length.
      apply NoDup_Permutation; [assumption| |].
      * constructor; [intros [->|[]]; congruence|].
        constructor; [intros []|constructor].
      * intros v. rewrite Hin, Hodd. simpl. split.
        -- destruct (Z.eqb_spec a v), (Z.eqb_spec b v); auto; discriminate.
        -- intros [<-|[<-|[]]]; rewrite Z.eqb_refl;
             [destruct (Z.eqb_spec b a)|destruct (Z.eqb_spec a b)];
             congruence || reflexivity.
Qed.

(** ** The occurrences come in scan order *)

Lemma StronglySorted_app (A : Type) (R : A -> A -> Prop) (l1 l2 : list A) :
  StronglySorted R l1 -> StronglySorted R l2 ->
  (forall a b, In a l1 -> In b l2 -> R a b) ->
  StronglySorted R (l1 ++ l2).
Proof.
  induction 1 as [|a l1 Hs IH Ha]; intros H2 Hcross; [assumption|].
  simpl. constructor.
  - apply IH; [assumption|]. intros x y Hx Hy. apply Hcross; [now right|assumption].
  - apply Forall_app. split; [assumption|].
    apply Forall_forall. intros y Hy. apply Hcross; [now left|assumption].
Qed.

Lemma StronglySorted_flat_map_range (A : Type) (R : A -> A -> Prop)
  (g : Z -> list A) (lo hi : Z) :
  (forall x, lo <= x < hi -> StronglySorted R (g x)) ->
  (forall x y a b, lo <= x < y -> y < hi -> In a (g x) -> In b (g y) -> R a b) ->
  StronglySorted R (flat_map g (range lo hi)).
Proof.
  remember (Z.to_nat (hi - lo)) as n eqn:Hn. revert lo Hn.
  induction n as [|n IH]; intros lo Hn Hs Hcross.
  - rewrite range_nil by lia. constructor.
  - rewrite range_cons by lia. simpl. apply StronglySorted_app.
    + apply Hs. lia.
    + apply IH; [lia| |].
      * intros x Hx. apply Hs. lia.
      * intros x y a b Hx Hy. apply Hcross; lia.
    + intros a b Ha Hb. apply in_flat_map in Hb. destruct Hb as (y & Hy & Hb).
      apply In_range in Hy. apply (Hcross lo y); try assumption; lia.
Qed.

Lemma edge_occurrences_sorted (adj : matrix) :
  StronglySorted scan_le (edge_occurrences adj).
Proof.
  unfold edge_occurrences. apply StronglySorted_flat_map_range.
  - intros i Hi. apply StronglySorted_flat_map_range.
    + intros j Hj. unfold cell_occurrences.
      induction (Z.to_nat (entry adj i j)) as [|n IH]; simpl; constructor;
        [assumption|].
      apply Forall_forall. intros c Hc. apply repeat_spec in Hc. subst c.
      right. simpl. lia.
    + intros j j' a b Hj Hj' Ha Hb. apply In_cell_occurrences in Ha, Hb.
      destruct Ha as [-> _], Hb as [-> _]. right. simpl. lia.
  - intros i i' a b Hi Hi' Ha Hb. apply in_flat_map in Ha, Hb.
    destruct Ha as (j & _ & Ha), Hb as (j' & _ & Hb).
    apply In_cell_occurrences in Ha, Hb.
    destruct Ha as [-> _], Hb as [-> _]. left. simpl. lia.
Qed.

(** ** The run recorded in the script *)

Lemma satisfies_forallb (m : model) (s : list formula) :
  forallb (holds m) s = true -> satisfies m s.
Proof.
  intros H. apply Forall_forall. now apply forallb_forall.
Defined.

Lemma encode_adj31 : encode adj31 = Ok (10, assertions87).
Proof. reflexivity. Defined.

Lemma satisfies_model218 : satisfies model218 assertions87.
Proof. apply satisfies_forallb. reflexivity. Defined.

(** ** Reading the path off the model *)

Lemma collect_loop (f : Z -> Z) (xs : list Z) (acc : list Z) :
  for_each xs (fun i results => v <- Ok (f i) ;; Ok (results ++ [v])) acc
  = Ok (acc ++ map f xs).
Proof.
  revert acc. induction xs as [|x xs IH]; intros acc; simpl.
  - now rewrite app_nil_r.
  - rewrite IH, <- app_assoc. reflexivity.
Qed.

Lemma collect_defined (zm : z3_model) (k : Z) :
  defines_P zm = true -> collect zm k = Ok (decode (values zm) k).
Proof.
  intros Hdef. unfold collect, as_long. rewrite Hdef.
  apply (collect_loop (fun i => eval (values zm) (P (IntVal i)))).
Qed.

Lemma collect_undefined (zm : z3_model) (k : Z) :
  defines_P zm = false -> 0 <= k -> collect zm k = Raise AttributeError.
Proof.
  intros Hdef Hk. unfold collect, as_long. rewrite Hdef.
  rewrite (range_cons 0 (k + 1)) by lia. reflexivity.
Qed.

(** The assertions of the script apply [P] exactly when there is an edge
    occurrence. *)
Lemma encode_mentions_P (adj : matrix) (k : Z) (s : list formula) :
  encode adj = Ok (k, s) ->
  0 <= k /\ (k = 0 -> s = []) /\ (1 <= k -> existsb mentions_P s = true).
Proof.
  intros Henc. pose proof (encode_Ok_readable _ _ Henc) as Hr.
  rewrite (encode_readable adj Hr) in Henc. injection Henc as <- <-.
  destruct (edge_occurrences adj) as [|[i j] l]; simpl length.
  - split; [lia|]. split; [reflexivity|lia].
  - split; [lia|]. split; [lia|]. reflexivity.
Qed.

Lemma main_path (z3 : solver) (adj : matrix) (k : Z) (s : list formula) (m : model) :
  encode adj = Ok (k, s) -> check (z3 s) <> unsat -> get_model (z3 s) = Some m ->
  1 <= k ->
  main z3 adj
  = ([Matrix adj; Assertions s; Verdict (check (z3 s)); ModelDump (model_after s m);
      Path (decode m k)], Ended).
Proof.
  intros Henc Hr Hm Hk. unfold main. rewrite Henc, Hm.
  destruct (encode_mentions_P adj k s Henc) as (_ & _ & Hdef).
  rewrite (collect_defined (model_after s m) k (Hdef Hk)).
  destruct (check (z3 s)); [reflexivity|contradiction|reflexivity].
Qed.

Lemma main_no_edge (z3 : solver) (adj : matrix) (s : list formula) (m : model) :
  encode adj = Ok (0, s) -> check (z3 s) <> unsat -> get_model (z3 s) = Some m ->
  s = [] /\
  main z3 adj
  = ([Matrix adj; Assertions []; Verdict (check (z3 [])); ModelDump (model_after [] m)],
     Traceback AttributeError).
Proof.
  intros Henc Hr Hm.
  destruct (encode_mentions_P adj 0 s Henc) as (_ & Hnil & _).
  specialize (Hnil eq_refl). subst s. split; [reflexivity|].
  unfold main. rewrite Henc, Hm.
  destruct (check (z3 [])); [reflexivity|contradiction|reflexivity].
Qed.

(** The embedding reproduces the run recorded in the script. *)
Lemma recorded_run :
  main (answers sat (Some model218)) adj31
  = ([Matrix adj31; Assertions assertions87; Verdict sat;
      ModelDump (Z3Model model218 true);
      Path [1; 0; 5; 2; 1; 4; 3; 3; 3; 1; 4]], Ended).
Proof. reflexivity. Qed.

(** * The laws of the specification *)

(** ** The encoder *)

(** C3: for every matrix the scan can read (each row at least as long as
    the number of rows; every square matrix is), the encoder ends with a
    counter [k] and an assertion list [s] in which the assertion numbered
    [e] is the disjunction [(P(t(e)) = u AND P(t(e)+1) = v) OR (P(t(e)) = v
    AND P(t(e)+1) = u)] of the [e]-th edge occurrence [(u, v)], and which
    besides these disjunctions holds exactly the bounds [t(e) <= k-1],
    [t(e) >= 0] for every index [e] below [k], and [t(e) != t(e')] for every
    pair of distinct indices below [k]. *)
Theorem encoder_assertions (adj : matrix) :
  readable adj ->
  exists k s,
    encode adj = Ok (k, s) /\
    k = Z.of_nat (length (edge_occurrences adj)) /\
    (forall e u v, nth_error (edge_occurrences adj) e = Some (u, v) ->
       nth_error s e
       = Some (Or (And (Eq (P (t (IntVal (Z.of_nat e)))) (IntVal u))
                       (Eq (P (Plus (t (IntVal (Z.of_nat e))) (IntVal 1)))
                           (IntVal v)))
                  (And (Eq (P (t (IntVal (Z.of_nat e)))) (IntVal v))
                       (Eq (P (Plus (t (IntVal (Z.of_nat e))) (IntVal 1)))
                           (IntVal u))))) /\
    (forall f, In f s <->
       (exists e u v, nth_error (edge_occurrences adj) e = Some (u, v) /\
                      f = edge_assertion (Z.of_nat e) u v) \/
       (exists e, 0 <= e < k /\ f = Le (t (IntVal e)) (IntVal (k - 1))) \/
       (exists e, 0 <= e < k /\ f = Ge (t (IntVal e)) (IntVal 0)) \/
       (exists e e', 0 <= e < k /\ 0 <= e' < k /\ e <> e' /\
                     f = Ne (t (IntVal e)) (t (IntVal e')))) /\
    (forall m, satisfies m s <-> euler_model (edge_occurrences adj) m).
Proof.
  intros Hr. eexists. eexists. split; [apply (encode_readable adj Hr)|].
  split; [reflexivity|]. split; [|split].
  - intros e u v He. rewrite nth_error_app1.
    + rewrite nth_error_edge_assertions, He. reflexivity.
    + rewrite length_edge_assertions. apply nth_error_Some. congruence.
  - intros f. rewrite in_app_iff, In_edge_assertions, in_flat_map. split.
    + intros [Hf|(e & He & Hf)]; [now left|]. right.
      apply In_range in He. apply In_order_row in Hf.
      destruct Hf as [->|[->|(e' & He' & Hne & ->)]].
      * left. now exists e.
      * right; left. now exists e.
      * right; right. now exists e, e'.
    + intros [Hf|[(e & He & ->)|[(e & He & ->)|(e & e' & He & He' & Hne & ->)]]];
        [now left|right; exists e..];
        (split; [now apply In_range|apply In_order_row]); auto.
      right; right. now exists e'.
  - intros m. apply satisfies_assertions.
Qed.

Lemma readable_adj31 : readable adj31.
Proof. repeat constructor. Defined.

Lemma encoder_assertions_witness :
  readable adj31 /\
  exists k s,
    encode adj31 = Ok (k, s) /\
    (forall m, satisfies m s <-> euler_model (edge_occurrences adj31) m).
Proof.
  split; [exact readable_adj31|].
  destruct (encoder_assertions adj31 readable_adj31)
    as (k & s & Henc & _ & _ & _ & Hsem).
  exists k, s. split; [exact Henc|exact Hsem].
Defined.

(** ** The graph loader *)

(** C4: on an n-by-n matrix of multiplicities (no entry negative) the scan
    reads every cell of the upper triangle and no other, row by row; the
    assertion numbered [e] is made for the [e]-th element of
    [edge_occurrences], the list that repeats every cell [(i, j)],
    [i <= j], as often as its entry says.  That list holds cells of the
    upper triangle only, in scan order, each exactly as often as its entry
    says, diagonal entries at face value; and the final counter [k] is the
    sum of the upper-triangle entries. *)
Theorem graph_loader_upper_triangle (adj : matrix) :
  square adj -> non_negative adj ->
  exists s,
    scan_edges adj (shape0 adj) (0, [])
    = Ok (Z.of_nat (length (edge_occurrences adj)), s) /\
    (forall e, nth_error s e
               = option_map (fun c => edge_assertion (Z.of_nat e) (fst c) (snd c))
                   (nth_error (edge_occurrences adj) e)) /\
    (forall i j, In (i, j) (edge_occurrences adj) ->
                 0 <= i <= j /\ j < shape0 adj) /\
    StronglySorted scan_le (edge_occurrences adj) /\
    (forall i j, 0 <= i <= j -> j < shape0 adj ->
                 Z.of_nat (count_occ pair_eq_dec (edge_occurrences adj) (i, j))
                 = entry adj i j) /\
    Z.of_nat (length (edge_occurrences adj)) = upper_sum adj.
Proof.
  intros Hsq Hnn. apply square_readable in Hsq.
  exists (edge_assertions 0 (edge_occurrences adj)).
  split; [now rewrite (emits_scan_edges adj Hsq)|].
  split; [intros e; apply nth_error_edge_assertions|].
  split; [intros i j Hin; apply In_edge_occurrences in Hin; lia|].
  split; [apply edge_occurrences_sorted|].
  split; [|now apply length_edge_occurrences_sum].
  intros i j Hi Hj. rewrite (count_edge_occurrences adj i j Hi Hj).
  apply Z2Nat.id. now apply entry_non_negative.
Qed.

Lemma square_adj31 : square adj31.
Proof. repeat constructor. Defined.

Lemma non_negative_adj31 : non_negative adj31.
Proof. repeat constructor; discriminate. Defined.

Lemma graph_loader_upper_triangle_witness :
  square adj31 /\ non_negative adj31 /\
  exists s,
    scan_edges adj31 6 (0, []) = Ok (10, s) /\
    Z.of_nat (length (edge_occurrences adj31)) = upper_sum adj31.
Proof.
  split; [exact square_adj31|]. split; [exact non_negative_adj31|].
  destruct (graph_loader_upper_triangle adj31 square_adj31 non_negative_adj31)
    as (s & Hscan & _ & _ & _ & _ & Hsum).
  exists s. split; [exact Hscan|exact Hsum].
Defined.

(** ** The entries below the diagonal *)

Lemma upper_triangle_agrees :
  forall i j, 0 <= i <= j -> j < shape0 asymmetric_graph ->
    get asymmetric_graph i j = get single_edge i j.
Proof.
  intros i j Hi Hj. change (shape0 asymmetric_graph) with 2 in Hj.
  assert (Hcases : (i = 0 /\ j = 0) \/ (i = 0 /\ j = 1) \/ (i = 1 /\ j = 1)) by lia.
  destruct Hcases as [[-> ->]|[[-> ->]|[-> ->]]]; reflexivity.
Defined.

(** C10, as stated, fails: the matrices with rows [0, 1], [0, 0] and
    [0, 1], [1, 0] agree on the upper triangle, yet the run prints the one
    it was given on line 33, so what is printed differs, by the entry below
    the diagonal. *)
Lemma lower_triangle_echoed :
  shape0 asymmetric_graph = shape0 single_edge /\
  (forall i j, 0 <= i <= j -> j < shape0 asymmetric_graph ->
     get asymmetric_graph i j = get single_edge i j) /\
  hd_error (stdout (main (answers sat (Some walk_011)) asymmetric_graph))
  = Some (Matrix [[0; 1]; [0; 0]]) /\
  hd_error (stdout (main (answers sat (Some walk_011)) single_edge))
  = Some (Matrix [[0; 1]; [1; 0]]) /\
  stdout (main (answers sat (Some walk_011)) asymmetric_graph)
  <> stdout (main (answers sat (Some walk_011)) single_edge).
Proof.
  split; [reflexivity|]. split; [exact upper_triangle_agrees|].
  split; [reflexivity|]. split; [reflexivity|]. discriminate.
Qed.

(** C10, amended: two matrices with the same number of rows that agree on
    every cell [(i, j)] with [i <= j] are encoded into the same counter and
    the same assertions, and with the same solver the two runs stop the
    same way and print the same lines after the first: same assertions,
    same verdict, same model, same decoded path.  The first line printed is
    the matrix itself (line 33), the only place where the entries below the
    diagonal are read. *)
Theorem lower_triangle_ignored (z3 : solver) (adj1 adj2 : matrix) :
  shape0 adj1 = shape0 adj2 ->
  (forall i j, 0 <= i <= j -> j < shape0 adj1 -> get adj1 i j = get adj2 i j) ->
  encode adj1 = encode adj2 /\
  hd_error (stdout (main z3 adj1)) = Some (Matrix adj1) /\
  hd_error (stdout (main z3 adj2)) = Some (Matrix adj2) /\
  tl (stdout (main z3 adj1)) = tl (stdout (main z3 adj2)) /\
  printed_path (main z3 adj1) = printed_path (main z3 adj2) /\
  ending_of (main z3 adj1) = ending_of (main z3 adj2).
Proof.
  intros Hn Hupper.
  assert (Henc : encode adj1 = encode adj2).
  { unfold encode. rewrite <- Hn. f_equal. unfold scan_edges.
    apply for_each_ext. intros i st Hi. apply In_range in Hi.
    apply for_each_ext. intros j st' Hj. apply In_range in Hj.
    unfold scan_cell. rewrite Hupper by lia. reflexivity. }
  split; [assumption|]. unfold main. rewrite Henc.
  destruct (encode adj2) as [[k s]|e]; [|repeat split].
  destruct (verdict_eqb (check (z3 s)) unsat); [repeat split|].
  destruct (get_model (z3 s)) as [m|]; [|repeat split].
  cbv zeta. destruct (collect (model_after s m) k); repeat split.
Qed.

Lemma lower_triangle_ignored_witness :
  shape0 asymmetric_graph = shape0 single_edge /\
  printed_path (main (answers sat (Some walk_011)) asymmetric_graph)
  = printed_path (main (answers sat (Some walk_011)) single_edge).
Proof.
  split; [reflexivity|].
  destruct (lower_triangle_ignored (answers sat (Some walk_011))
              asymmetric_graph single_edge eq_refl upper_triangle_agrees)
    as (_ & _ & _ & _ & Hpath & _).
  exact Hpath.
Defined.

(** ** The decoded path *)

(** C7: when the solver answers [sat] and hands out its model, the
    decoder reads [P] at [range(k+1)], [k] being the number of edge
    occurrences of the matrix (the sum of its upper triangle when no entry
    is negative).  With at least one edge the run prints, last of all, this
    path of exactly [k + 1] vertices.  With no edge, where the path should
    have the one vertex, the model has no entry for [P], the first
    evaluation raises, and the run ends in an [AttributeError] without a
    path. *)
Theorem length_law (z3 : solver) (adj : matrix) (k : Z) (s : list formula)
  (m : model) :
  encode adj = Ok (k, s) -> check (z3 s) = sat -> get_model (z3 s) = Some m ->
  k = Z.of_nat (length (edge_occurrences adj)) /\
  (non_negative adj -> k = upper_sum adj) /\
  Z.of_nat (length (decode m k)) = k + 1 /\
  (1 <= k ->
     main z3 adj
     = ([Matrix adj; Assertions s; Verdict sat; ModelDump (model_after s m);
         Path (decode m k)], Ended) /\
     printed_path (main z3 adj) = Some (decode m k)) /\
  (k = 0 ->
     main z3 adj
     = ([Matrix adj; Assertions []; Verdict sat; ModelDump (model_after [] m)],
        Traceback AttributeError) /\
     printed_path (main z3 adj) = None).
Proof.
  intros Henc Hsat Hm.
  destruct (satisfies_encode adj k s m Henc) as [Hk _].
  assert (Hr : check (z3 s) <> unsat) by (rewrite Hsat; discriminate).
  split; [assumption|]. split.
  { intros Hnn. rewrite Hk. now apply length_edge_occurrences_sum. }
  split; [apply length_decode; lia|]. split.
  - intros H1. rewrite (main_path z3 adj k s m Henc Hr Hm H1), Hsat.
    split; reflexivity.
  - intros ->. destruct (main_no_edge z3 adj s m Henc Hr Hm) as [-> Hrun].
    rewrite Hrun, Hsat. split; reflexivity.
Qed.

Lemma length_law_witness :
  encode adj31 = Ok (10, assertions87) /\
  printed_path (main (answers sat (Some model218)) adj31)
  = Some (decode model218 10) /\
  Z.of_nat (length (decode model218 10)) = 10 + 1 /\
  encode single_vertex = Ok (0, []) /\
  main (answers sat (Some all_five)) single_vertex
  = ([Matrix single_vertex; Assertions []; Verdict sat;
      ModelDump (Z3Model all_five false)], Traceback AttributeError).
Proof.
  split; [exact encode_adj31|].
  destruct (length_law (answers sat (Some model218)) adj31 10 assertions87
              model218 encode_adj31 eq_refl eq_refl)
    as (_ & _ & Hlen & Hpath & _).
  split; [exact (proj2 (Hpath ltac:(discriminate)))|].
  split; [exact Hlen|]. split; [reflexivity|].
  destruct (length_law (answers sat (Some all_five)) single_vertex 0 []
              all_five eq_refl eq_refl eq_refl)
    as (_ & _ & _ & _ & Hcrash).
  exact (proj1 (Hcrash eq_refl)).
Defined.

(** C1: when the solver answers [sat] with a model of the assertions, the
    decoded path traverses every edge occurrence exactly once: occurrence
    [e] sits at the adjacent pair number [t(e)], in one of its two
    directions; two occurrences never share a pair; every adjacent pair of
    the path holds an occurrence; and, directions forgotten, the adjacent
    pairs of the path are the edge occurrences in another order.  With at
    least one edge this path is the one the run prints. *)
Theorem coverage_law (z3 : solver) (adj : matrix) (k : Z) (s : list formula)
  (m : model) :
  encode adj = Ok (k, s) -> check (z3 s) = sat -> get_model (z3 s) = Some m ->
  satisfies m s ->
  (1 <= k -> printed_path (main z3 adj) = Some (decode m k)) /\
  covers (edge_occurrences adj) (decode m k) (slot m) /\
  length (steps (decode m k)) = length (edge_occurrences adj) /\
  Permutation (map undirected (steps (decode m k))) (edge_occurrences adj).
Proof.
  intros Henc Hsat Hm Hs.
  assert (Hr : check (z3 s) <> unsat) by (rewrite Hsat; discriminate).
  split.
  { intros H1. now rewrite (main_path z3 adj k s m Henc Hr Hm H1). }
  destruct (satisfies_encode adj k s m Henc) as [-> Hiff].
  apply Hiff in Hs.
  split; [now apply decode_covers|]. split.
  - now rewrite steps_decode, length_map, length_seq.
  - rewrite <- (undirected_ordered _ (edge_occurrences_ordered adj)) at 2.
    now apply decode_perm.
Qed.

Lemma coverage_law_witness :
  encode adj31 = Ok (10, assertions87) /\
  satisfies model218 assertions87 /\
  printed_path (main (answers sat (Some model218)) adj31)
  = Some (decode model218 10) /\
  covers (edge_occurrences adj31) (decode model218 10) (slot model218) /\
  Permutation (map undirected (steps (decode model218 10)))
    (edge_occurrences adj31).
Proof.
  split; [exact encode_adj31|]. split; [exact satisfies_model218|].
  destruct (coverage_law (answers sat (Some model218)) adj31 10 assertions87
              model218 encode_adj31 eq_refl eq_refl satisfies_model218)
    as (Hpath & Hcov & _ & Hperm).
  split; [exact (Hpath ltac:(discriminate))|]. split; [exact Hcov|exact Hperm].
Defined.

(** C8: the self-loops at [v] are the occurrences [(v, v)] of the list, as
    many as the diagonal entry at [v] says, at least one when that entry is
    positive.  The two disjuncts asserted for such an occurrence are the
    same conjunction; in every model of the assertions the decoded path
    holds [v] at the two positions [t(e)] and [t(e)+1] of that occurrence,
    and two distinct occurrences take distinct positions, so every
    self-loop shows as a repeated pair [(v, v)] of its own in the path,
    which, there being an edge, is the path the run prints. *)
Theorem self_loop_law (z3 : solver) (adj : matrix) (k : Z) (s : list formula)
  (m : model) (v : Z) :
  encode adj = Ok (k, s) -> check (z3 s) = sat -> get_model (z3 s) = Some m ->
  satisfies m s ->
  (0 <= v < shape0 adj ->
     count_occ pair_eq_dec (edge_occurrences adj) (v, v)
     = Z.to_nat (entry adj v v) /\
     (0 < entry adj v v ->
        exists e, nth_error (edge_occurrences adj) e = Some (v, v))) /\
  (forall e, nth_error (edge_occurrences adj) e = Some (v, v) ->
     printed_path (main z3 adj) = Some (decode m k) /\
     (exists c, nth_error s e = Some (Or c c)) /\
     nth_error (decode m k) (slot m e) = Some v /\
     nth_error (decode m k) (S (slot m e)) = Some v) /\
  (forall e e', nth_error (edge_occurrences adj) e = Some (v, v) ->
     nth_error (edge_occurrences adj) e' = Some (v, v) ->
     slot m e = slot m e' -> e = e').
Proof.
  intros Henc Hsat Hm Hs.
  assert (Hr : check (z3 s) <> unsat) by (rewrite Hsat; discriminate).
  destruct (assertion_at adj k s Henc) as (Hk & Hnth).
  destruct (satisfies_encode adj k s m Henc) as [_ Hiff].
  apply Hiff in Hs.
  split; [|split].
  - intros Hv. split; [apply count_edge_occurrences; lia|].
    intros Hpos. apply In_nth_error, In_edge_occurrences. lia.
  - intros e He.
    assert (Hlt : (e < length (edge_occurrences adj))%nat)
      by (apply nth_error_Some; congruence).
    split.
    { rewrite (main_path z3 adj k s m Henc Hr Hm) by lia. reflexivity. }
    subst k.
    split; [rewrite (Hnth e v v He); now eexists|].
    pose proof (slot_lt _ _ Hs e Hlt) as Hslot.
    pose proof (slot_step _ _ Hs e v v He) as Hstep. simpl in Hstep.
    rewrite decode_nat, !nth_error_map, !nth_error_seq.
    destruct (Nat.ltb_spec (slot m e) (S (length (edge_occurrences adj)))); [|lia].
    destruct (Nat.ltb_spec (S (slot m e)) (S (length (edge_occurrences adj)))); [|lia].
    cbn [option_map Nat.add].
    replace (Z.of_nat (S (slot m e))) with (Z.of_nat (slot m e) + 1) by lia.
    destruct Hstep as [Hstep|Hstep]; injection Hstep as H1 H2;
      now rewrite H1, H2.
  - intros e e' He He'. apply (slot_inj _ _ Hs); apply nth_error_Some; congruence.
Qed.

Lemma self_loop_law_witness :
  encode adj31 = Ok (10, assertions87) /\
  satisfies model218 assertions87 /\
  entry adj31 3 3 = 2 /\
  nth_error (edge_occurrences adj31) 7 = Some (3, 3) /\
  printed_path (main (answers sat (Some model218)) adj31)
  = Some (decode model218 10) /\
  nth_error (decode model218 10) (slot model218 7) = Some 3 /\
  nth_error (decode model218 10) (S (slot model218 7)) = Some 3.
Proof.
  split; [exact encode_adj31|]. split; [exact satisfies_model218|].
  split; [reflexivity|]. split; [reflexivity|].
  destruct (self_loop_law (answers sat (Some model218)) adj31 10 assertions87
              model218 3 encode_adj31 eq_refl eq_refl satisfies_model218)
    as (_ & Hloop & _).
  destruct (Hloop 7%nat eq_refl) as (Hpath & _ & H1 & H2).
  split; [exact Hpath|]. split; [exact H1|exact H2].
Defined.

(** ** Inputs outside the contract *)

Lemma asymmetric_graph_invalid : ~ valid_graph asymmetric_graph.
Proof.
  intros (_ & _ & Hsym).
  specialize (Hsym 0 1 ltac:(split; [discriminate|reflexivity])
                ltac:(split; [discriminate|reflexivity])).
  discriminate.
Qed.

Lemma negative_graph_invalid : ~ valid_graph negative_graph.
Proof.
  intros (_ & Hnn & _). unfold non_negative, negative_graph in Hnn.
  inversion Hnn as [|? ? _ Hrows]. inversion Hrows as [|? ? Hrow _].
  inversion Hrow as [|? ? _ Hrest]. inversion Hrest as [|? ? Hneg _]. lia.
Qed.

Lemma wide_graph_invalid : ~ valid_graph wide_graph.
Proof.
  intros (Hsq & _ & _). unfold square, wide_graph in Hsq.
  inversion Hsq as [|? ? Hlen _]. discriminate.
Qed.

(** C5, as stated, fails: an asymmetric matrix, a matrix with a negative
    entry and a matrix that is not square are each encoded, and the solver
    receives assertions built from them. *)
Lemma invalid_graph_not_rejected :
  ~ valid_graph asymmetric_graph /\
  encode asymmetric_graph
  = Ok (1, [edge_assertion 0 0 1; Le (t (IntVal 0)) (IntVal 0);
            Ge (t (IntVal 0)) (IntVal 0)]) /\
  ~ valid_graph negative_graph /\
  encode negative_graph
  = Ok (1, [edge_assertion 0 0 1; Le (t (IntVal 0)) (IntVal 0);
            Ge (t (IntVal 0)) (IntVal 0)]) /\
  ~ valid_graph wide_graph /\
  encode wide_graph
  = Ok (1, [edge_assertion 0 0 1; Le (t (IntVal 0)) (IntVal 0);
            Ge (t (IntVal 0)) (IntVal 0)]).
Proof.
  repeat split;
    first [exact asymmetric_graph_invalid | exact negative_graph_invalid
          | exact wide_graph_invalid].
Qed.

(** C5, amended: the script validates nothing.  Whatever the matrix, square
    or not, symmetric or not, with or without negative entries, either every
    one of its rows has at least as many columns as there are rows, and then
    the constraints are built from its upper triangle (entries below the
    diagonal and columns past the last row are not read, a negative entry
    yields no occurrence); or some row is shorter, and then the scan ends in
    an [IndexError] after the matrix has been printed. *)
Theorem encode_validates_nothing (adj : matrix) :
  (readable adj /\
   encode adj
   = Ok (Z.of_nat (length (edge_occurrences adj)),
         edge_assertions 0 (edge_occurrences adj)
         ++ flat_map (order_row (Z.of_nat (length (edge_occurrences adj))))
              (range 0 (Z.of_nat (length (edge_occurrences adj)))))) \/
  (~ readable adj /\ encode adj = Raise IndexError /\
   forall z3, main z3 adj = ([Matrix adj], Traceback IndexError)).
Proof.
  destruct (encode adj) as [st|e] eqn:Henc.
  - left. pose proof (encode_Ok_readable _ _ Henc) as Hr.
    split; [assumption|]. rewrite <- Henc. now apply encode_readable.
  - right. destruct (encode_Raise _ _ Henc) as [-> Hnr].
    split; [assumption|]. split; [reflexivity|].
    intros z3. unfold main. now rewrite Henc.
Qed.

(** ** The verdicts *)

Lemma single_edge_valid : valid_graph single_edge.
Proof.
  split; [repeat constructor|]. split; [repeat constructor; discriminate|].
  intros i j Hi Hj. change (shape0 single_edge) with 2 in Hi, Hj.
  assert (Hi' : i = 0 \/ i = 1) by lia. assert (Hj' : j = 0 \/ j = 1) by lia.
  destruct Hi' as [-> | ->], Hj' as [-> | ->]; reflexivity.
Defined.

(** C6, as stated, fails: a malformed matrix ends a run exactly as a
    well-formed one does, after the same assertions, verdict and path; and
    the exit status is the same after [unsat], without a path, as after
    [sat], with one. *)
Lemma no_four_terminations :
  ~ valid_graph asymmetric_graph /\ valid_graph single_edge /\
  main (answers sat (Some walk_011)) asymmetric_graph
  = ([Matrix asymmetric_graph;
      Assertions [edge_assertion 0 0 1; Le (t (IntVal 0)) (IntVal 0);
                  Ge (t (IntVal 0)) (IntVal 0)];
      Verdict sat; ModelDump (Z3Model walk_011 true); Path [0; 1]], Ended) /\
  main (answers sat (Some walk_011)) single_edge
  = ([Matrix single_edge;
      Assertions [edge_assertion 0 0 1; Le (t (IntVal 0)) (IntVal 0);
                  Ge (t (IntVal 0)) (IntVal 0)];
      Verdict sat; ModelDump (Z3Model walk_011 true); Path [0; 1]], Ended) /\
  ending_of (main (answers unsat None) single_edge) = Exit /\
  exit_status (ending_of (main (answers unsat None) single_edge))
  = exit_status (ending_of (main (answers sat (Some walk_011)) single_edge)).
Proof.
  split; [exact asymmetric_graph_invalid|].
  split; [exact single_edge_valid|]. repeat split.
Qed.

(** C6, amended: the script tests the verdict for [unsat] only.  Once the
    constraints are built, the run stops at [exit()] without a path when the
    verdict is [unsat].  After any other verdict, [sat] and [unknown] alike,
    it asks for the model: when there is none the run ends in the solver's
    exception; when there is one and the graph has an edge, the decoded path
    is printed and the run ends normally; when there is one and the graph
    has no edge, the model is printed and the run ends in an
    [AttributeError] without a path.  So a run on [unknown] never ends as a
    run on [unsat] does, but nothing is reported for it beyond the verdict
    printed before; no ending is reserved for malformed input, and the exit
    status is 0 whenever the run ends without an exception, with and without
    a path. *)
Theorem verdict_handling (z3 : solver) (adj : matrix) (k : Z) (s : list formula) :
  encode adj = Ok (k, s) ->
  (check (z3 s) = unsat ->
     main z3 adj = ([Matrix adj; Assertions s; Verdict unsat], Exit)) /\
  (check (z3 s) <> unsat ->
     forall m, get_model (z3 s) = Some m -> 1 <= k ->
       main z3 adj
       = ([Matrix adj; Assertions s; Verdict (check (z3 s));
           ModelDump (model_after s m); Path (decode m k)], Ended)) /\
  (check (z3 s) <> unsat ->
     forall m, get_model (z3 s) = Some m -> k = 0 ->
       main z3 adj
       = ([Matrix adj; Assertions s; Verdict (check (z3 s));
           ModelDump (model_after s m)], Traceback AttributeError)) /\
  (check (z3 s) <> unsat -> get_model (z3 s) = None ->
     main z3 adj
     = ([Matrix adj; Assertions s; Verdict (check (z3 s))],
        Traceback Z3Exception)) /\
  (check (z3 s) = unknown -> ending_of (main z3 adj) <> Exit) /\
  ((forall e, ending_of (main z3 adj) <> Traceback e) ->
   exit_status (ending_of (main z3 adj)) = 0).
Proof.
  intros Henc.
  split; [|split; [|split; [|split; [|split]]]].
  - intros Hr. unfold main. rewrite Henc, Hr. reflexivity.
  - intros Hr m Hm H1. exact (main_path z3 adj k s m Henc Hr Hm H1).
  - intros Hr m Hm Hk. subst k.
    destruct (main_no_edge z3 adj s m Henc Hr Hm) as [Hs Hrun].
    rewrite Hrun. subst s. reflexivity.
  - intros Hr Hm. unfold main. rewrite Henc, Hm.
    destruct (check (z3 s)); [reflexivity|contradiction|reflexivity].
  - intros Hr. unfold main. rewrite Henc, Hr. simpl.
    destruct (get_model (z3 s)) as [m|]; [|discriminate].
    destruct (collect (model_after s m) k); discriminate.
  - unfold main. rewrite Henc.
    destruct (verdict_eqb (check (z3 s)) unsat); [reflexivity|].
    destruct (get_model (z3 s)) as [m|].
    + cbv zeta. destruct (collect (model_after s m) k) as [results|e];
        [reflexivity|]. intros Hne. exfalso. now apply (Hne e).
    + intros Hne. exfalso. now apply (Hne Z3Exception).
Qed.

Lemma verdict_handling_witness :
  encode single_edge
  = Ok (1, [edge_assertion 0 0 1; Le (t (IntVal 0)) (IntVal 0);
            Ge (t (IntVal 0)) (IntVal 0)]) /\
  ending_of (main (answers unknown None) single_edge) = Traceback Z3Exception.
Proof.
  split; [reflexivity|].
  destruct (verdict_handling (answers unknown None) single_edge 1 _ eq_refl)
    as (_ & _ & _ & Hnone & _).
  rewrite Hnone; [reflexivity|discriminate|reflexivity].
Defined.

(** ** The single vertex *)

(** C9: for the 1-by-1 zero matrix the counter ends at [k = 0] and nothing
    is asserted, so the empty assertion list is satisfiable; but the model
    of a solver that was told nothing about [P] has no entry for [P], the
    evaluation of [P(0)] is not a numeral, and the run that printed [sat]
    and the model ends in an [AttributeError]: no path is printed, where
    the path [0] was expected, and the exit status is 1. *)
Theorem single_vertex_scenario (z3 : solver) (m : model) :
  check (z3 []) = sat -> get_model (z3 []) = Some m ->
  encode single_vertex = Ok (0, []) /\
  satisfiable [] /\
  as_long (model_after [] m) 0 = Raise AttributeError /\
  main z3 single_vertex
  = ([Matrix single_vertex; Assertions []; Verdict sat;
      ModelDump (Z3Model m false)], Traceback AttributeError) /\
  printed_path (main z3 single_vertex) = None /\
  exit_status (ending_of (main z3 single_vertex)) = 1.
Proof.
  intros Hsat Hm.
  assert (Hr : check (z3 []) <> unsat) by (rewrite Hsat; discriminate).
  destruct (main_no_edge z3 single_vertex [] m eq_refl Hr Hm) as [_ Hrun].
  rewrite Hsat in Hrun.
  split; [reflexivity|]. split; [exists m; constructor|].
  split; [reflexivity|]. rewrite Hrun. repeat split.
Qed.

Lemma single_vertex_scenario_witness :
  ending_of (main (answers sat (Some all_five)) single_vertex)
  = Traceback AttributeError.
Proof.
  destruct (single_vertex_scenario (answers sat (Some all_five)) all_five
              eq_refl eq_refl) as (_ & _ & _ & Hrun & _).
  rewrite Hrun. reflexivity.
Defined.

(** ** Parity and connectedness *)

(** C2: for a valid matrix the constraints are built, and
    - if the graph is connected, they are satisfiable exactly when the
      number of vertices of odd degree is 0 or 2;
    - if two edges lie in different connected components, they are
      unsatisfiable;
    and a solver that decides the constraints reports [sat], respectively
    [unsat], accordingly. *)
Theorem parity_law (adj : matrix) :
  valid_graph adj ->
  exists k s,
    encode adj = Ok (k, s) /\
    (connected adj ->
       (satisfiable s <-> (odd_count adj = 0 \/ odd_count adj = 2)%nat)) /\
    (edges_in_two_components adj -> ~ satisfiable s) /\
    (forall z3, decides z3 s ->
       (connected adj ->
          (check (z3 s) = sat <-> (odd_count adj = 0 \/ odd_count adj = 2)%nat)) /\
       (edges_in_two_components adj -> check (z3 s) = unsat)).
Proof.
  intros (Hsq & Hnn & Hsym).
  pose proof (encode_readable adj (square_readable adj Hsq)) as Henc.
  set (k := Z.of_nat (length (edge_occurrences adj))) in *.
  set (s := edge_assertions 0 (edge_occurrences adj)
            ++ flat_map (order_row k) (range 0 k)) in *.
  assert (Hsat : satisfiable s
                 <-> edge_connected (edge_occurrences adj)
                     /\ euler_degrees (edge_occurrences adj)).
  { rewrite <- euler_iff. unfold satisfiable.
    split; intros [m Hm]; exists m;
      now apply (satisfies_encode adj k s m Henc). }
  assert (Hconn : connected adj ->
            (satisfiable s <-> (odd_count adj = 0 \/ odd_count adj = 2)%nat)).
  { intros Hc. rewrite Hsat, (odd_count_degrees adj Hnn Hsym).
    pose proof (connected_edge_connected adj Hsym Hc). tauto. }
  assert (Htwo : edges_in_two_components adj -> ~ satisfiable s).
  { intros Ht Hs. apply Hsat in Hs.
    now apply (two_components_not_connected adj Hsym Ht). }
  exists k, s. split; [exact Henc|]. split; [exact Hconn|]. split; [exact Htwo|].
  intros z3 Hdec.
  assert (Hcheck : check (z3 s) = sat <-> satisfiable s).
  { destruct Hdec as [[Hr (m & _ & Hm)]|[Hr Hno]]; rewrite Hr.
    - split; [intros _; now exists m|reflexivity].
    - split; [discriminate|contradiction]. }
  split.
  - intros Hc. rewrite Hcheck. now apply Hconn.
  - intros Ht. destruct Hdec as [[Hr (m & _ & Hm)]|[Hr Hno]]; [|assumption].
    exfalso. apply (Htwo Ht). now exists m.
Qed.

Lemma single_edge_connected : connected single_edge.
Proof.
  assert (H01 : adjacent single_edge 0 1) by (repeat split; discriminate).
  assert (H10 : adjacent single_edge 1 0) by (repeat split; discriminate).
  intros u v Hu Hv. change (shape0 single_edge) with 2 in Hu, Hv.
  assert (Hu' : u = 0 \/ u = 1) by lia. assert (Hv' : v = 0 \/ v = 1) by lia.
  destruct Hu' as [-> | ->], Hv' as [-> | ->];
    first [apply rt_refl | apply rt_step; assumption].
Defined.

Lemma two_edges_valid : valid_graph two_edges.
Proof.
  split; [repeat constructor|]. split; [repeat constructor; discriminate|].
  intros i j Hi Hj. change (shape0 two_edges) with 4 in Hi, Hj.
  assert (Hi' : i = 0 \/ i = 1 \/ i = 2 \/ i = 3) by lia.
  assert (Hj' : j = 0 \/ j = 1 \/ j = 2 \/ j = 3) by lia.
  destruct Hi' as [->|[->|[->| ->]]], Hj' as [->|[->|[->| ->]]]; reflexivity.
Defined.

Lemma two_edges_side (u v : Z) :
  reachable two_edges u v -> (u <= 1 <-> v <= 1).
Proof.
  induction 1 as [u v (Hu & Hv & Hpos)| |u w v _ IH1 _ IH2]; [|tauto|tauto].
  change (shape0 two_edges) with 4 in Hu, Hv.
  assert (Hu' : u = 0 \/ u = 1 \/ u = 2 \/ u = 3) by lia.
  assert (Hv' : v = 0 \/ v = 1 \/ v = 2 \/ v = 3) by lia.
  destruct Hu' as [->|[->|[->| ->]]], Hv' as [->|[->|[->| ->]]];
    try discriminate Hpos; lia.
Defined.

Lemma two_edges_components : edges_in_two_components two_edges.
Proof.
  exists 0, 1, 2, 3.
  split; [repeat split; discriminate|]. split; [repeat split; discriminate|].
  intros Hr. apply two_edges_side in Hr. lia.
Defined.

Lemma parity_law_witness :
  (valid_graph single_edge /\ connected single_edge /\
   exists k s, encode single_edge = Ok (k, s) /\ satisfiable s) /\
  (valid_graph two_edges /\ edges_in_two_components two_edges /\
   exists k s, encode two_edges = Ok (k, s) /\ ~ satisfiable s).
Proof.
  split.
  - split; [exact single_edge_valid|]. split; [exact single_edge_connected|].
    destruct (parity_law single_edge single_edge_valid)
      as (k & s & Henc & Hconn & _).
    exists k, s. split; [exact Henc|].
    apply (Hconn single_edge_connected). right. reflexivity.
  - split; [exact two_edges_valid|]. split; [exact two_edges_components|].
    destruct (parity_law two_edges two_edges_valid)
      as (k & s & Henc & _ & Htwo & _).
    exists k, s. split; [exact Henc|exact (Htwo two_edges_components)].
Defined.

(** * Further properties of the script *)

(** ** The size of the encoding *)

Lemma filter_all (A : Type) (f : A -> bool) (l : list A) :
  (forall x, In x l -> f x = true) -> filter f l = l.
Proof.
  induction l as [|a l IH]; intros H; [reflexivity|]. simpl.
  rewrite (H a (or_introl eq_refl)), IH; [reflexivity|].
  intros x Hx. apply H. now right.
Qed.

Lemma length_order_row (k i : Z) :
  0 <= i < k -> Z.of_nat (length (order_row k i)) = k + 1.
Proof.
  intros Hi. unfold order_row. rewrite length_app, length_map.
  rewrite (range_app 0 i k), (range_cons i k) by lia.
  rewrite filter_app. cbn [filter]. rewrite Z.eqb_refl. cbn [negb].
  rewrite !filter_all.
  - rewrite length_app, !length_range. simpl. lia.
  - intros j Hj. apply In_range in Hj. apply negb_true_iff, Z.eqb_neq. lia.
  - intros j Hj. apply In_range in Hj. apply negb_true_iff, Z.eqb_neq. lia.
Qed.

Lemma length_flat_map_sum (A B : Type) (g : A -> list B) (l : list A) :
  Z.of_nat (length (flat_map g l))
  = sum_list (map (fun x => Z.of_nat (length (g x))) l).
Proof.
  rewrite length_sum_list, sum_list_flat_map. apply sum_list_ext.
  intros x _. now rewrite length_sum_list.
Qed.

Lemma sum_list_const (A : Type) (c : Z) (l : list A) :
  sum_list (map (fun _ => c) l) = Z.of_nat (length l) * c.
Proof.
  rewrite length_sum_list, <- sum_list_scale. apply sum_list_ext.
  intros; lia.
Qed.

Lemma filter_flat_map (A B : Type) (f : B -> bool) (g : A -> list B) (l : list A) :
  filter f (flat_map g l) = flat_map (fun x => filter f (g x)) l.
Proof.
  induction l as [|a l IH]; [reflexivity|]. simpl. now rewrite filter_app, IH.
Qed.

Lemma disjunctions_edge_assertions (l : list (Z * Z)) (k0 : Z) :
  filter is_disjunction (edge_assertions k0 l) = edge_assertions k0 l.
Proof.
  revert k0. induction l as [|[i j] l IH]; intros k0; [reflexivity|].
  simpl. now rewrite IH.
Qed.

Lemma distinctness_edge_assertions (l : list (Z * Z)) (k0 : Z) :
  filter is_distinctness (edge_assertions k0 l) = [].
Proof.
  revert k0. induction l as [|[i j] l IH]; intros k0; [reflexivity|].
  simpl. apply IH.
Qed.

Lemma disjunctions_order_row (k i : Z) :
  filter is_disjunction (order_row k i) = [].
Proof.
  unfold order_row. cbn [app filter is_disjunction].
  induction (filter (fun j => negb (i =? j)) (range 0 k)) as [|j r IH];
    [reflexivity|exact IH].
Qed.

Lemma distinctness_order_row (k i : Z) :
  0 <= i < k ->
  Z.of_nat (length (filter is_distinctness (order_row k i))) = k - 1.
Proof.
  intros Hi. pose proof (length_order_row k i Hi) as Hlen.
  unfold order_row in *. cbn [app filter is_distinctness].
  rewrite filter_all.
  - rewrite length_app in Hlen. simpl in Hlen. lia.
  - intros f Hf. apply in_map_iff in Hf. destruct Hf as (j & <- & _).
    reflexivity.
Qed.

(** X1: the encoder asserts [k] disjunctions, [2 k] bounds and [k (k - 1)]
    distinctness constraints, [k (k + 2)] assertions in all. *)
Theorem encoding_size (adj : matrix) (k : Z) (s : list formula) :
  encode adj = Ok (k, s) ->
  0 <= k /\
  Z.of_nat (length s) = k * (k + 2) /\
  Z.of_nat (length (filter is_disjunction s)) = k /\
  Z.of_nat (length (filter is_distinctness s)) = k * (k - 1).
Proof.
  intros Henc. pose proof (encode_Ok_readable _ _ Henc) as Hr.
  rewrite (encode_readable adj Hr) in Henc. injection Henc as <- <-.
  set (K := Z.of_nat (length (edge_occurrences adj))).
  assert (HK : 0 <= K) by (unfold K; lia).
  split; [assumption|]. split; [|split].
  - rewrite length_app, Nat2Z.inj_add, length_edge_assertions. fold K.
    rewrite length_flat_map_sum, (sum_list_ext _ _ (fun _ => K + 1)).
    + rewrite sum_list_const, length_range. lia.
    + intros i Hi. apply In_range in Hi. now apply length_order_row.
  - rewrite filter_app, disjunctions_edge_assertions, filter_flat_map.
    rewrite (flat_map_ext _ (fun _ => [])) by (intros i; apply disjunctions_order_row).
    rewrite length_app, length_edge_assertions.
    replace (flat_map (fun _ : Z => @nil formula) (range 0 K)) with (@nil formula).
    + simpl. fold K. lia.
    + induction (range 0 K); [reflexivity|assumption].
  - rewrite filter_app, distinctness_edge_assertions, filter_flat_map.
    cbn [app]. rewrite length_flat_map_sum, (sum_list_ext _ _ (fun _ => K - 1)).
    + rewrite sum_list_const, length_range. lia.
    + intros i Hi. apply In_range in Hi. now apply distinctness_order_row.
Qed.

Lemma encoding_size_witness :
  encode adj31 = Ok (10, assertions87) /\
  Z.of_nat (length assertions87) = 10 * (10 + 2).
Proof.
  split; [exact encode_adj31|].
  destruct (encoding_size adj31 10 assertions87 encode_adj31) as (_ & Hlen & _).
  exact Hlen.
Defined.

(** ** Matrices without edges, and negative entries *)

(** X2: a matrix the scan can read is encoded into no assertion at all,
    with [k = 0], exactly when no entry of its upper triangle is positive;
    every model then satisfies what was asserted. *)
Theorem edgeless_encoding (adj : matrix) :
  readable adj ->
  ((forall i j, 0 <= i <= j -> j < shape0 adj -> entry adj i j <= 0)
   <-> encode adj = Ok (0, [])) /\
  (encode adj = Ok (0, []) -> forall m, satisfies m []).
Proof.
  intros Hr. split; [|intros _ m; constructor].
  rewrite (encode_readable adj Hr). split.
  - intros Hnone.
    assert (Hnil : edge_occurrences adj = []).
    { destruct (edge_occurrences adj) as [|[i j] l] eqn:Hocc; [reflexivity|].
      exfalso. assert (Hin : In (i, j) (edge_occurrences adj))
        by (rewrite Hocc; now left).
      apply In_edge_occurrences in Hin.
      specialize (Hnone i j ltac:(lia) ltac:(lia)). lia. }
    rewrite Hnil. reflexivity.
  - intros Henc i j Hi Hj.
    injection Henc as Hk _.
    destruct (Z.le_gt_cases (entry adj i j) 0) as [|Hpos]; [assumption|].
    exfalso. assert (Hin : In (i, j) (edge_occurrences adj))
      by (apply In_edge_occurrences; lia).
    destruct (edge_occurrences adj); [contradiction|discriminate].
Qed.

Lemma readable_lower_only : readable lower_only.
Proof. repeat constructor. Defined.

Lemma edgeless_encoding_witness :
  readable lower_only /\ encode lower_only = Ok (0, []).
Proof.
  split; [exact readable_lower_only|].
  apply (proj1 (edgeless_encoding lower_only readable_lower_only)).
  intros i j Hi Hj. change (shape0 lower_only) with 2 in Hj.
  assert (Hcases : (i = 0 /\ j = 0) \/ (i = 0 /\ j = 1) \/ (i = 1 /\ j = 1)) by lia.
  destruct Hcases as [[-> ->]|[[-> ->]|[-> ->]]]; discriminate.
Defined.

Lemma get_clamp (adj : matrix) (i j : Z) :
  get (clamp adj) i j = a <- get adj i j ;; Ok (Z.max 0 a).
Proof.
  unfold get, clamp. rewrite nth_error_map.
  destruct (nth_error adj (Z.to_nat i)) as [row|]; [|reflexivity]. simpl.
  rewrite nth_error_map. now destruct (nth_error row (Z.to_nat j)).
Qed.

Lemma scan_cell_clamp (adj : matrix) (i j : Z) (st : state) :
  scan_cell (clamp adj) i j st = scan_cell adj i j st.
Proof.
  unfold scan_cell. rewrite get_clamp.
  destruct (get adj i j) as [a|e]; [|reflexivity]. simpl.
  destruct (Z.max 0 a =? 0) eqn:Hmax, (a =? 0) eqn:Ha; try reflexivity.
  - rewrite range_nil by lia. reflexivity.
  - lia.
  - now replace (Z.max 0 a) with a by lia.
Qed.

(** X3: a negative entry counts as a zero: replacing every negative entry
    of the matrix by 0 changes neither the counter nor any assertion, nor
    whether the scan raises. *)
Theorem negative_entries_as_zero (adj : matrix) :
  encode (clamp adj) = encode adj.
Proof.
  unfold encode. replace (shape0 (clamp adj)) with (shape0 adj)
    by (unfold shape0, clamp; now rewrite length_map).
  f_equal. unfold scan_edges.
  apply for_each_ext. intros i st _. apply for_each_ext. intros j st' _.
  apply scan_cell_clamp.
Qed.

(** ** The scan and the solver it writes to *)

(** X4: the scan only appends: started on a solver that already holds the
    assertions [s0] with the counter at [k0], it keeps [s0] as they are,
    appends one disjunction per edge occurrence, numbered from [k0] on, and
    advances the counter by the number of occurrences. *)
Theorem scan_appends (adj : matrix) (k0 k1 : Z) (s0 s1 : list formula) :
  scan_edges adj (shape0 adj) (k0, s0) = Ok (k1, s1) ->
  s1 = s0 ++ edge_assertions k0 (edge_occurrences adj) /\
  k1 = k0 + Z.of_nat (length (edge_occurrences adj)) /\
  firstn (length s0) s1 = s0 /\
  k1 - k0 = Z.of_nat (length s1) - Z.of_nat (length s0).
Proof.
  intros Hscan. pose proof (scan_edges_Ok _ _ _ Hscan) as Hr.
  rewrite (emits_scan_edges adj Hr) in Hscan. injection Hscan as <- <-.
  split; [reflexivity|]. split; [reflexivity|]. split.
  - rewrite firstn_app, Nat.sub_diag, firstn_all. simpl. apply app_nil_r.
  - rewrite length_app, length_edge_assertions. lia.
Qed.

Lemma scan_appends_witness :
  scan_edges single_edge (shape0 single_edge) (7, [Ge (t (IntVal 0)) (IntVal 0)])
  = Ok (8, [Ge (t (IntVal 0)) (IntVal 0); edge_assertion 7 0 1]) /\
  firstn 1 [Ge (t (IntVal 0)) (IntVal 0); edge_assertion 7 0 1]
  = [Ge (t (IntVal 0)) (IntVal 0)].
Proof.
  split; [reflexivity|].
  destruct (scan_appends single_edge 7 8 [Ge (t (IntVal 0)) (IntVal 0)]
              [Ge (t (IntVal 0)) (IntVal 0); edge_assertion 7 0 1] eq_refl)
    as (_ & _ & Hpre & _).
  exact Hpre.
Defined.

(** ** The printed path as a walk in the graph *)

Lemma undirected_min_max (a b : Z) : undirected (a, b) = (Z.min a b, Z.max a b).
Proof.
  unfold undirected. simpl. destruct (Z.leb_spec a b); f_equal; lia.
Qed.

Lemma decode_steps_in_graph (adj : matrix) (k : Z) (s : list formula) (m : model)
  (c : Z * Z) :
  encode adj = Ok (k, s) -> satisfies m s ->
  In c (steps (decode m k)) -> In (undirected c) (edge_occurrences adj).
Proof.
  intros Henc Hs Hin.
  destruct (satisfies_encode adj k s m Henc) as [-> Hiff]. apply Hiff in Hs.
  rewrite <- (undirected_ordered _ (edge_occurrences_ordered adj)).
  apply (Permutation_in _ (decode_perm _ m Hs)). now apply in_map.
Qed.

Lemma step_in_graph (adj : matrix) (k : Z) (s : list formula) (m : model)
  (a b : Z) :
  encode adj = Ok (k, s) -> satisfies m s ->
  In (a, b) (steps (decode m k)) ->
  0 <= a < shape0 adj /\ 0 <= b < shape0 adj /\
  0 < entry adj (Z.min a b) (Z.max a b).
Proof.
  intros Henc Hs Hin.
  pose proof (decode_steps_in_graph adj k s m (a, b) Henc Hs Hin) as Hocc.
  rewrite undirected_min_max in Hocc. apply In_edge_occurrences in Hocc. lia.
Qed.

(** X5: two consecutive vertices of the path decoded from a model of the
    assertions are vertices of the matrix that an edge joins: the entry of
    the upper triangle for the pair is positive. *)
Theorem path_is_walk (adj : matrix) (k : Z) (s : list formula) (m : model)
  (a b : Z) :
  encode adj = Ok (k, s) -> satisfies m s ->
  In (a, b) (steps (decode m k)) ->
  0 <= a < shape0 adj /\ 0 <= b < shape0 adj /\
  0 < entry adj (Z.min a b) (Z.max a b) /\
  In (Z.min a b, Z.max a b) (edge_occurrences adj).
Proof.
  intros Henc Hs Hin.
  destruct (step_in_graph adj k s m a b Henc Hs Hin) as (Ha & Hb & Hpos).
  split; [assumption|]. split; [assumption|]. split; [assumption|].
  rewrite <- undirected_min_max.
  now apply (decode_steps_in_graph adj k s m (a, b)).
Qed.

Lemma path_is_walk_witness :
  encode adj31 = Ok (10, assertions87) /\ satisfies model218 assertions87 /\
  In (5, 2) (steps (decode model218 10)) /\ 0 < entry adj31 2 5.
Proof.
  split; [exact encode_adj31|]. split; [exact satisfies_model218|].
  assert (Hin : In (5, 2) (steps (decode model218 10)))
    by (right; right; now left).
  split; [exact Hin|].
  destruct (path_is_walk adj31 10 assertions87 model218 5 2
              encode_adj31 satisfies_model218 Hin) as (_ & _ & Hpos & _).
  exact Hpos.
Defined.

Lemma In_decode_step (m : model) (K : nat) (v : Z) :
  (1 <= K)%nat -> In v (decode m (Z.of_nat K)) ->
  exists c, In c (steps (decode m (Z.of_nat K))) /\ (fst c = v \/ snd c = v).
Proof.
  intros HK Hin. rewrite decode_nat in Hin. apply in_map_iff in Hin.
  destruct Hin as (i & <- & Hi). apply in_seq in Hi.
  destruct (Nat.eq_dec i K) as [->|Hne].
  - exists (interp_P m (Z.of_nat (K - 1)), interp_P m (Z.of_nat (K - 1) + 1)).
    split.
    + apply (nth_error_In _ (K - 1)). apply nth_error_steps_decode. lia.
    + right. simpl. f_equal. lia.
  - exists (interp_P m (Z.of_nat i), interp_P m (Z.of_nat i + 1)). split.
    + apply (nth_error_In _ i). apply nth_error_steps_decode. lia.
    + now left.
Qed.

(** X6: when the graph has an edge, every vertex of the path decoded from a
    model of the assertions is a vertex of the matrix with an edge at it;
    a vertex without edges never shows in the path. *)
Theorem path_visits_edge_vertices (adj : matrix) (k : Z) (s : list formula)
  (m : model) (v : Z) :
  encode adj = Ok (k, s) -> satisfies m s -> 1 <= k ->
  In v (decode m k) ->
  0 <= v < shape0 adj /\
  exists u, 0 <= u < shape0 adj /\ 0 < entry adj (Z.min v u) (Z.max v u).
Proof.
  intros Henc Hs Hk Hin.
  destruct (satisfies_encode adj k s m Henc) as [Hlen _].
  assert (Hstep : exists c, In c (steps (decode m k)) /\ (fst c = v \/ snd c = v)).
  { rewrite Hlen in *. apply In_decode_step; [lia|assumption]. }
  destruct Hstep as ([a b] & Hc & Hv). simpl in Hv.
  pose proof (step_in_graph adj k s m a b Henc Hs Hc) as (Ha & Hb & Hpos).
  destruct Hv as [<- | <-].
  - split; [assumption|]. now exists b.
  - split; [assumption|]. exists a. now rewrite Z.min_comm, Z.max_comm.
Qed.

Lemma path_visits_edge_vertices_witness :
  encode adj31 = Ok (10, assertions87) /\ satisfies model218 assertions87 /\
  In 4 (decode model218 10) /\ 0 <= 4 < shape0 adj31.
Proof.
  split; [exact encode_adj31|]. split; [exact satisfies_model218|].
  assert (Hin : In 4 (decode model218 10))
    by (do 5 right; now left).
  split; [exact Hin|].
  exact (proj1 (path_visits_edge_vertices adj31 10 assertions87 model218 4
                  encode_adj31 satisfies_model218
                  ltac:(discriminate) Hin)).
Defined.

(** X7: the path crosses every pair of vertices as often as the matrix
    says: for [i <= j] the number of adjacent pairs of the path that are
    [(i, j)] or [(j, i)] is the entry at [(i, j)] (line 37 of the script). *)
Theorem path_multiplicity (adj : matrix) (k : Z) (s : list formula) (m : model)
  (i j : Z) :
  encode adj = Ok (k, s) -> satisfies m s ->
  0 <= i <= j -> j < shape0 adj ->
  count_occ pair_eq_dec (map undirected (steps (decode m k))) (i, j)
  = Z.to_nat (entry adj i j).
Proof.
  intros Henc Hs Hi Hj.
  destruct (satisfies_encode adj k s m Henc) as [-> Hiff]. apply Hiff in Hs.
  rewrite <- (count_edge_occurrences adj i j Hi Hj).
  apply Permutation_count_occ.
  rewrite <- (undirected_ordered _ (edge_occurrences_ordered adj)) at 2.
  now apply decode_perm.
Qed.

Lemma path_multiplicity_witness :
  encode adj31 = Ok (10, assertions87) /\ satisfies model218 assertions87 /\
  count_occ pair_eq_dec (map undirected (steps (decode model218 10))) (1, 4)
  = 2%nat.
Proof.
  split; [exact encode_adj31|]. split; [exact satisfies_model218|].
  exact (path_multiplicity adj31 10 assertions87 model218 1 4
           encode_adj31 satisfies_model218
           ltac:(split; discriminate) ltac:(reflexivity)).
Defined.

(** ** Which models there are *)

Lemma reverse_model_euler (l : list (Z * Z)) (m : model) :
  euler_model l m -> euler_model l (reverse_model (Z.of_nat (length l)) m).
Proof.
  intros (Hedges & Hrange & Hinj). set (K := Z.of_nat (length l)) in *.
  split; [|split].
  - intros e u v He. unfold pins, reverse_model. cbn [interp_P interp_t].
    replace (K - (K - 1 - interp_t m (Z.of_nat e)))
      with (interp_t m (Z.of_nat e) + 1) by lia.
    replace (K - (K - 1 - interp_t m (Z.of_nat e) + 1))
      with (interp_t m (Z.of_nat e)) by lia.
    destruct (Hedges e u v He) as [[H1 H2]|[H1 H2]]; auto.
  - intros e He. cbn [reverse_model interp_t]. specialize (Hrange e He). lia.
  - intros e e' He He' Hne. cbn [reverse_model interp_t].
    specialize (Hinj e e' He He' Hne). lia.
Qed.

Lemma rev_map_seq (A : Type) (f : nat -> A) (n : nat) :
  rev (map f (seq 0 n)) = map (fun i => f (n - 1 - i)%nat) (seq 0 n).
Proof.
  induction n as [|n IH]; [reflexivity|].
  assert (Hlast : rev (map f (seq 0 (S n))) = f n :: rev (map f (seq 0 n))).
  { rewrite seq_S, map_app, rev_app_distr. reflexivity. }
  rewrite Hlast, IH. cbn [seq map]. rewrite <- seq_shift, map_map.
  f_equal; [f_equal; lia|].
  apply map_ext. intros i. f_equal. lia.
Qed.

Lemma decode_reverse_model (m : model) (K : nat) :
  decode (reverse_model (Z.of_nat K) m) (Z.of_nat K) = rev (decode m (Z.of_nat K)).
Proof.
  rewrite !decode_nat, rev_map_seq. apply map_ext_in. intros i Hi.
  apply in_seq in Hi. cbn [reverse_model interp_P]. f_equal. lia.
Qed.

(** X8: the encoding has no direction: from a model of the assertions,
    the model that mirrors every slot satisfies them too, and its path is
    the first one read backwards.  So the reverse of a path the script can
    print is a path the script can print. *)
Theorem reversed_path_is_a_model (adj : matrix) (k : Z) (s : list formula)
  (m : model) :
  encode adj = Ok (k, s) -> satisfies m s ->
  satisfies (reverse_model k m) s /\
  decode (reverse_model k m) k = rev (decode m k).
Proof.
  intros Henc Hs.
  destruct (satisfies_encode adj k s m Henc) as [Hk Hiff].
  destruct (satisfies_encode adj k s (reverse_model k m) Henc) as [_ Hiff'].
  apply Hiff in Hs. subst k. split.
  - now apply Hiff', reverse_model_euler.
  - apply decode_reverse_model.
Qed.

Lemma reversed_path_is_a_model_witness :
  encode adj31 = Ok (10, assertions87) /\ satisfies model218 assertions87 /\
  satisfies (reverse_model 10 model218) assertions87 /\
  decode (reverse_model 10 model218) 10 = [4; 1; 3; 3; 3; 4; 1; 2; 5; 0; 1].
Proof.
  split; [exact encode_adj31|]. split; [exact satisfies_model218|].
  destruct (reversed_path_is_a_model adj31 10 assertions87 model218
              encode_adj31 satisfies_model218) as [Hsat Hrev].
  split; [exact Hsat|]. rewrite Hrev. reflexivity.
Defined.

Lemma agree_on_path_euler (l : list (Z * Z)) (m m' : model) :
  agree_on_path (Z.of_nat (length l)) m m' ->
  euler_model l m -> euler_model l m'.
Proof.
  intros [HP Ht] (Hedges & Hrange & Hinj). set (K := Z.of_nat (length l)) in *.
  split; [|split].
  - intros e u v He.
    assert (Hlt : 0 <= Z.of_nat e < K).
    { unfold K. assert ((e < length l)%nat) by (apply nth_error_Some; congruence).
      lia. }
    pose proof (Hrange _ Hlt) as Hslot. unfold pins.
    rewrite (Ht _ Hlt), !HP by lia. now apply Hedges.
  - intros e He. rewrite (Ht e He). now apply Hrange.
  - intros e e' He He' Hne. rewrite (Ht e He), (Ht e' He'). now apply Hinj.
Qed.

(** X9: the assertions look at [P] on the positions [0..k] and at [t] on
    the indices [0..k-1] only, the positions the decoder reads: a model
    changed anywhere else still satisfies them and gives the same path. *)
Theorem assertions_local (adj : matrix) (k : Z) (s : list formula)
  (m m' : model) :
  encode adj = Ok (k, s) -> satisfies m s -> agree_on_path k m m' ->
  satisfies m' s /\ decode m' k = decode m k.
Proof.
  intros Henc Hs Hagree.
  destruct (satisfies_encode adj k s m Henc) as [Hk Hiff].
  destruct (satisfies_encode adj k s m' Henc) as [_ Hiff'].
  split.
  - apply Hiff'. rewrite Hk in Hagree.
    now apply (agree_on_path_euler _ m m' Hagree), Hiff.
  - unfold decode. apply map_ext_in. intros i Hi. apply In_range in Hi.
    simpl. apply (proj1 Hagree). lia.
Qed.

Lemma agree_with_walk_011 :
  agree_on_path 1 walk_011 (Model (fun i => if i <=? 0 then 0 else if i <=? 1 then 1 else 9)
                              (fun e => if e =? 0 then 0 else 9)).
Proof.
  split; intros i Hi; simpl.
  - assert (Hc : i = 0 \/ i = 1) by lia. destruct Hc as [-> | ->]; reflexivity.
  - assert (i = 0) by lia. subst. reflexivity.
Defined.

Lemma assertions_local_witness :
  decode (Model (fun i => if i <=? 0 then 0 else if i <=? 1 then 1 else 9)
            (fun e => if e =? 0 then 0 else 9)) 1
  = decode walk_011 1.
Proof.
  refine (proj2 (assertions_local single_edge 1 _ walk_011 _ eq_refl _
                   agree_with_walk_011)).
  apply satisfies_forallb. reflexivity.
Defined.

(** ** Where a path starts and ends *)

Lemma model_endpoint_parity (l : list (Z * Z)) (m : model) (v : Z) :
  euler_model l m ->
  Z.odd (deg l v)
  = xorb (interp_P m 0 =? v) (interp_P m (Z.of_nat (length l)) =? v).
Proof.
  intros Hm. rewrite <- deg_undirected.
  rewrite <- (deg_perm _ _ v (decode_perm l m Hm)).
  rewrite deg_undirected, steps_decode.
  apply (walk_parity (fun i => interp_P m (Z.of_nat i)) 0 (length l) v).
Qed.

Lemma decode_ends (m : model) (k : Z) :
  0 <= k ->
  hd_error (decode m k) = Some (interp_P m 0) /\
  last (decode m k) 0 = interp_P m k.
Proof.
  intros Hk. rewrite <- (Z2Nat.id k Hk) at 1 2. rewrite decode_nat. split.
  - reflexivity.
  - rewrite seq_S, map_app. cbn [map Nat.add]. rewrite last_last.
    f_equal. lia.
Qed.

(** X10: for a valid matrix, the path decoded from a model of the
    assertions returns to its first vertex exactly when no vertex has odd
    degree; otherwise its first and last vertex are the two vertices of odd
    degree, and no other vertex has odd degree. *)
Theorem path_endpoints (adj : matrix) (k : Z) (s : list formula) (m : model) :
  valid_graph adj -> encode adj = Ok (k, s) -> satisfies m s ->
  hd_error (decode m k) = Some (interp_P m 0) /\
  last (decode m k) 0 = interp_P m k /\
  (interp_P m 0 = interp_P m k <-> odd_count adj = 0%nat) /\
  (forall v, In v (odd_vertices adj) <->
             interp_P m 0 <> interp_P m k /\
             (v = interp_P m 0 \/ v = interp_P m k)).
Proof.
  intros (_ & Hnn & Hsym) Henc Hs.
  destruct (satisfies_encode adj k s m Henc) as [Hk Hiff]. apply Hiff in Hs.
  pose proof (fun v => model_endpoint_parity _ m v Hs) as Hpar.
  rewrite <- Hk in Hpar.
  assert (Hodd : forall v, In v (odd_vertices adj) <->
                   interp_P m 0 <> interp_P m k /\
                   (v = interp_P m 0 \/ v = interp_P m k)).
  { intros v. rewrite (In_odd_vertices adj v Hnn Hsym), Hpar.
    destruct (Z.eqb_spec (interp_P m 0) v) as [Ha|Ha],
             (Z.eqb_spec (interp_P m k) v) as [Hb|Hb]; simpl; split;
      try discriminate; try (intros _; split; [congruence|auto]);
      try (intros [Hne [Hv|Hv]]; congruence). }
  destruct (decode_ends m k) as [Hhd Hlast]; [lia|].
  split; [assumption|]. split; [assumption|]. split; [|assumption].
  unfold odd_count. split.
  - intros Heq. destruct (odd_vertices adj) as [|v r]; [reflexivity|].
    exfalso. destruct (proj1 (Hodd v) (or_introl eq_refl)) as [Hne _].
    contradiction.
  - intros Hnil. destruct (Z.eq_dec (interp_P m 0) (interp_P m k)) as [|Hne];
      [assumption|]. exfalso.
    assert (Hin : In (interp_P m 0) (odd_vertices adj)) by (apply Hodd; auto).
    destruct (odd_vertices adj); [contradiction|discriminate].
Qed.

Lemma valid_adj31 : valid_graph adj31.
Proof.
  split; [exact square_adj31|]. split; [exact non_negative_adj31|].
  intros i j Hi Hj. change (shape0 adj31) with 6 in Hi, Hj.
  assert (Hi' : i = 0 \/ i = 1 \/ i = 2 \/ i = 3 \/ i = 4 \/ i = 5) by lia.
  assert (Hj' : j = 0 \/ j = 1 \/ j = 2 \/ j = 3 \/ j = 4 \/ j = 5) by lia.
  destruct Hi' as [->|[->|[->|[->|[->| ->]]]]],
           Hj' as [->|[->|[->|[->|[->| ->]]]]]; reflexivity.
Defined.

Lemma path_endpoints_witness :
  valid_graph adj31 /\ encode adj31 = Ok (10, assertions87) /\
  satisfies model218 assertions87 /\
  (In 4 (odd_vertices adj31) <->
   interp_P model218 0 <> interp_P model218 10 /\
   (4 = interp_P model218 0 \/ 4 = interp_P model218 10)).
Proof.
  split; [exact valid_adj31|]. split; [exact encode_adj31|].
  split; [exact satisfies_model218|].
  destruct (path_endpoints adj31 10 assertions87 model218 valid_adj31
              encode_adj31 satisfies_model218) as (_ & _ & _ & Hodd).
  exact (Hodd 4).
Defined.

(** ** Satisfiable matrices, connected or not *)

Lemma edges_connected_edge_connected (adj : matrix) :
  symmetric adj ->
  (edges_connected adj <-> edge_connected (edge_occurrences adj)).
Proof.
  intros Hsym. split; intros Hc u u' v v' Hu Hv.
  - apply (linked_adjacent adj _ _ Hsym) in Hu, Hv.
    apply (reach_reachable adj _ _ Hsym). now apply (Hc u u' v v').
  - apply (reach_reachable adj _ _ Hsym), (Hc u u' v v');
      now apply (linked_adjacent adj _ _ Hsym).
Qed.

(** X11: Euler's theorem for the encoding, vertices without edges
    allowed: the assertions built from a valid matrix are satisfiable
    exactly when all its edges lie in one connected component and the number
    of vertices of odd degree is 0 or 2. *)
Theorem euler_theorem (adj : matrix) :
  valid_graph adj ->
  exists k s,
    encode adj = Ok (k, s) /\
    (satisfiable s <->
     edges_connected adj /\ (odd_count adj = 0 \/ odd_count adj = 2)%nat).
Proof.
  intros (Hsq & Hnn & Hsym).
  pose proof (encode_readable adj (square_readable adj Hsq)) as Henc.
  eexists. eexists. split; [exact Henc|].
  rewrite (edges_connected_edge_connected adj Hsym).
  rewrite (odd_count_degrees adj Hnn Hsym), <- euler_iff.
  unfold satisfiable.
  split; intros [m Hm]; exists m; now apply (satisfies_encode adj _ _ m Henc).
Qed.

Lemma edge_and_isolated_valid : valid_graph edge_and_isolated.
Proof.
  split; [repeat constructor|]. split; [repeat constructor; discriminate|].
  intros i j Hi Hj. change (shape0 edge_and_isolated) with 3 in Hi, Hj.
  assert (Hi' : i = 0 \/ i = 1 \/ i = 2) by lia.
  assert (Hj' : j = 0 \/ j = 1 \/ j = 2) by lia.
  destruct Hi' as [->|[->| ->]], Hj' as [->|[->| ->]]; reflexivity.
Defined.

Lemma edge_and_isolated_edges_connected : edges_connected edge_and_isolated.
Proof.
  assert (H01 : adjacent edge_and_isolated 0 1) by (repeat split; discriminate).
  assert (H10 : adjacent edge_and_isolated 1 0) by (repeat split; discriminate).
  assert (Hends : forall u u', adjacent edge_and_isolated u u' -> u = 0 \/ u = 1).
  { intros u u' (Hu & Hu' & Hpos). change (shape0 edge_and_isolated) with 3 in Hu, Hu'.
    assert (Hc : u = 0 \/ u = 1 \/ u = 2) by lia.
    assert (Hc' : u' = 0 \/ u' = 1 \/ u' = 2) by lia.
    destruct Hc as [->|[->| ->]]; auto.
    destruct Hc' as [->|[->| ->]]; discriminate Hpos. }
  intros u u' v v' Hu Hv.
  destruct (Hends _ _ Hu) as [-> | ->], (Hends _ _ Hv) as [-> | ->];
    first [apply rt_refl | apply rt_step; assumption].
Defined.

Lemma euler_theorem_witness :
  valid_graph edge_and_isolated /\ edges_connected edge_and_isolated /\
  exists k s, encode edge_and_isolated = Ok (k, s) /\ satisfiable s.
Proof.
  split; [exact edge_and_isolated_valid|].
  split; [exact edge_and_isolated_edges_connected|].
  destruct (euler_theorem edge_and_isolated edge_and_isolated_valid)
    as (k & s & Henc & Hsat).
  exists k, s. split; [exact Henc|].
  apply Hsat. split; [exact edge_and_isolated_edges_connected|].
  right. reflexivity.
Defined.

(** ** Degrees and the counter *)

Lemma sum_at_vertex (a n : Z) :
  0 <= a < n -> sum_list (map (fun v => at_vertex v a) (range 0 n)) = 1.
Proof.
  intros Ha.
  rewrite (sum_list_ext _ _ (fun v => 1 * at_vertex a v)).
  - rewrite (sum_pick (fun _ => 1) a 0 n).
    replace ((0 <=? a) && (a <? n)) with true by lia. reflexivity.
  - intros v _. unfold at_vertex. rewrite (Z.eqb_sym a v).
    destruct (v =? a); reflexivity.
Qed.

Lemma sum_deg (l : list (Z * Z)) (n : Z) :
  Forall (fun c => 0 <= fst c < n /\ 0 <= snd c < n) l ->
  sum_list (map (deg l) (range 0 n)) = 2 * Z.of_nat (length l).
Proof.
  induction 1 as [|c l [Hc1 Hc2] _ IH].
  - rewrite (sum_list_zero _ (deg [])); [reflexivity|]. reflexivity.
  - rewrite (sum_list_ext _ _ (fun v => (at_vertex v (fst c) + at_vertex v (snd c))
                                        + deg l v))
      by (intros v _; apply deg_cons).
    rewrite !sum_list_add, IH, !sum_at_vertex by assumption.
    cbn [length]. lia.
Qed.

Lemma odd_sum_list (A : Type) (f : A -> Z) (l : list A) :
  Z.odd (sum_list (map f l)) = Nat.odd (length (filter (fun x => Z.odd (f x)) l)).
Proof.
  induction l as [|a l IH]; [reflexivity|].
  cbn [map filter]. unfold sum_list in *. cbn [fold_right].
  rewrite Z.odd_add, IH. destruct (Z.odd (f a)); [|reflexivity].
  cbn [length]. rewrite Nat.odd_succ, <- Nat.negb_odd.
  now destruct (Nat.odd (length (filter (fun x => Z.odd (f x)) l))).
Qed.

(** X12: for a valid matrix the degrees of the vertices add up to twice
    the counter [k], every edge occurrence being counted at both its ends,
    so the number of vertices of odd degree is even. *)
Theorem handshake (adj : matrix) :
  valid_graph adj ->
  exists k s,
    encode adj = Ok (k, s) /\
    sum_list (map (degree adj) (range 0 (shape0 adj))) = 2 * k /\
    Nat.even (odd_count adj) = true.
Proof.
  intros (Hsq & Hnn & Hsym).
  pose proof (encode_readable adj (square_readable adj Hsq)) as Henc.
  eexists. eexists. split; [exact Henc|].
  assert (Hsum : sum_list (map (degree adj) (range 0 (shape0 adj)))
                 = 2 * Z.of_nat (length (edge_occurrences adj))).
  { rewrite <- (sum_deg (edge_occurrences adj) (shape0 adj)).
    - apply sum_list_ext. intros v Hv. apply In_range in Hv.
      symmetry. now apply deg_degree.
    - apply Forall_forall. intros [i j] Hin. apply In_edge_occurrences in Hin.
      simpl. lia. }
  split; [exact Hsum|].
  unfold odd_count, odd_vertices. rewrite <- Nat.negb_odd, <- odd_sum_list, Hsum.
  now rewrite Z.mul_comm, Z.odd_mul, andb_false_r.
Qed.

Lemma handshake_witness :
  valid_graph adj31 /\
  (exists k s, encode adj31 = Ok (k, s) /\
     sum_list (map (degree adj31) (range 0 6)) = 2 * k).
Proof.
  split; [exact valid_adj31|].
  destruct (handshake adj31 valid_adj31) as (k & s & Henc & Hsum & _).
  exists k, s. split; [exact Henc|exact Hsum].
Defined.
